(** * reduxer.py: anonymisation of PII and proper nouns, and its reversal

    A shallow embedding of [anonymize_text_including_proper_nouns_and_addresses]
    and [deanonymize_text] from [src/reduxer.py].

    - Python [str] values are [string]s, a character being an [ascii];
      the three [str] operations the
      program uses ([x in s], [s.replace(old, new, 1)],
      [s.replace(old, new)]) are written out below with Python's treatment
      of the empty pattern.
    - The lookup table is a Python [dict]: an insertion-ordered association
      list in which assigning to a present key keeps the key's position and
      overwrites its value ([dict_set]).
    - [counters] is a [collections.Counter]: a finite map whose missing keys
      read as 0.
    - [re.finditer] and the spaCy pipeline [nlp] are external to the
      repository; the anonymiser is parameterised by them. *)

From Stdlib Require Import String Ascii List Arith Lia Bool Permutation Sorted.
From Stdlib Require Import Decimal DecimalNat DecimalString.
From stdpp Require Import gmap strings.
Import ListNotations.
Open Scope string_scope.

#[local] Arguments String.append !s1 s2 : simpl nomatch.

(** ** Python string operations *)

(** [strip_prefix p s] is [Some r] exactly when [s = p + r]. *)
Fixpoint strip_prefix (p s : string) : option string :=
  match p, s with
  | EmptyString, _ => Some s
  | String a p', String b s' =>
      if Ascii.eqb a b then strip_prefix p' s' else None
  | String _ _, EmptyString => None
  end.

(** [sub in s]. *)
Fixpoint occurs (sub s : string) : bool :=
  match strip_prefix sub s with
  | Some _ => true
  | None =>
      match s with
      | EmptyString => false
      | String _ s' => occurs sub s'
      end
  end.

(** [s.replace(old, new, 1)]: the leftmost occurrence only. *)
Fixpoint replace_first (old new s : string) : string :=
  match strip_prefix old s with
  | Some rest => new +:+ rest
  | None =>
      match s with
      | EmptyString => EmptyString
      | String c s' => String c (replace_first old new s')
      end
  end.

(** Scan for a non-empty [old], left to right, occurrences not overlapping:
    [skip] counts the characters of the current occurrence still to drop. *)
Fixpoint replace_scan (old new : string) (skip : nat) (s : string) : string :=
  match s with
  | EmptyString => EmptyString
  | String c s' =>
      match skip with
      | S k => replace_scan old new k s'
      | O =>
          match strip_prefix old s with
          | Some _ => new +:+ replace_scan old new (String.length old - 1) s'
          | None => String c (replace_scan old new 0 s')
          end
      end
  end.

(** With an empty [old] Python puts [new] before every character and at the
    end. *)
Fixpoint intersperse (new s : string) : string :=
  match s with
  | EmptyString => new
  | String c s' => new +:+ String c (intersperse new s')
  end.

(** [s.replace(old, new)]: every occurrence. *)
Definition replace (old new s : string) : string :=
  match old with
  | EmptyString => intersperse new s
  | String _ _ => replace_scan old new 0 s
  end.

(** [f"{n}"] for a non-negative integer. *)
Definition str (n : nat) : string := NilZero.string_of_uint (Nat.to_uint n).

(** ** Dictionaries and counters *)

Abbreviation dict := (list (string * string)).

(** [d[k] = v]. *)
Fixpoint dict_set (k v : string) (d : dict) : dict :=
  match d with
  | [] => [(k, v)]
  | (k', v') :: d' =>
      if String.eqb k' k then (k', v) :: d' else (k', v') :: dict_set k v d'
  end.

Fixpoint dict_get (k : string) (d : dict) : option string :=
  match d with
  | [] => None
  | (k', v') :: d' => if String.eqb k' k then Some v' else dict_get k d'
  end.

Definition keys (d : dict) : list string := map fst d.

Abbreviation Counter := (gmap string nat).

(** ** The NLP document *)

Record Span := mkSpan { span_text : string; label_ : string }.
Record Token := mkToken { token_text : string; pos_ : string }.
Record Doc := mkDoc { ents : list Span; tokens : list Token }.

(** An element of [ents_and_tokens]. *)
Inductive ent_or_token :=
| Ent (e : Span)
| Tok (t : Token).

Definition text_of (x : ent_or_token) : string :=
  match x with
  | Ent e => span_text e
  | Tok t => token_text t
  end.

(** [list(doc.ents) + [token for token in doc if token.pos_ == "PROPN"]] *)
Definition ents_and_tokens_unsorted (doc : Doc) : list ent_or_token :=
  (map Ent (ents doc) ++
   map Tok (List.filter (fun t => String.eqb (pos_ t) "PROPN")
                        (tokens doc)))%list.

(** [sorted(..., key=lambda x: -len(x.text))]: Python's sort is stable, so
    the result is the one stable arrangement by descending length.  Each
    element is put in front of the first element that is not longer. *)
Fixpoint insert_by_len (x : ent_or_token) (l : list ent_or_token)
  : list ent_or_token :=
  match l with
  | [] => [x]
  | y :: l' =>
      if Nat.ltb (String.length (text_of x)) (String.length (text_of y))
      then y :: insert_by_len x l'
      else x :: l
  end.

Fixpoint sorted_by_neg_len (l : list ent_or_token) : list ent_or_token :=
  match l with
  | [] => []
  | x :: l' => insert_by_len x (sorted_by_neg_len l')
  end.

Definition ents_and_tokens (doc : Doc) : list ent_or_token :=
  sorted_by_neg_len (ents_and_tokens_unsorted doc).

(** ** The anonymiser *)

Record state := mkState {
  anonymized_text : string;
  lookup_table : dict;
  counters : Counter
}.

Definition allowed_labels : list string :=
  ["ORG"; "PERSON"; "GPE"; "LOC"; "FAC"; "PROPN"].

Definition allowed (label : string) : bool :=
  existsb (String.eqb label) allowed_labels.

Definition label_of (x : ent_or_token) : string :=
  match x with
  | Tok _ => "PROPN"
  | Ent e => label_ e
  end.

(** [f"[{label}{n}]"] *)
Definition entity_placeholder (label : string) (n : nat) : string :=
  "[" +:+ label +:+ str n +:+ "]".

(** Body of the loop over [ents_and_tokens] (lines 41-55). *)
Definition entity_step (st : state) (x : ent_or_token) : state :=
  let label := label_of x in
  if allowed label then
    let original := text_of x in
    let n := counters st !!! label + 1 in
    let placeholder_with_counter := entity_placeholder label n in
    if occurs original (anonymized_text st) then
      {| anonymized_text :=
           replace_first original placeholder_with_counter (anonymized_text st);
         lookup_table :=
           dict_set placeholder_with_counter original (lookup_table st);
         counters := <[label := n]> (counters st) |}
    else
      {| anonymized_text := anonymized_text st;
         lookup_table := lookup_table st;
         counters := <[label := n]> (counters st) |}
  else st.

Definition entity_pass (l : list ent_or_token) (st : state) : state :=
  fold_left entity_step l st.

(** Body of the inner loop over the matches of one PII type (lines 30-34). *)
Definition regex_step (pii_type placeholder : string) (st : state)
    (original : string) : state :=
  let n := counters st !!! pii_type + 1 in
  let placeholder_with_counter := placeholder +:+ str n in
  {| anonymized_text :=
       replace_first original placeholder_with_counter (anonymized_text st);
     lookup_table :=
       dict_set placeholder_with_counter original (lookup_table st);
     counters := <[pii_type := n]> (counters st) |}.

Section Anonymizer.

(** The regex engine: [finditer pat s] lists [match.group()] for the
    matches of [re.finditer(pat, s)], left to right.  The spaCy pipeline:
    [nlp s] is the analysed document. *)
Context {pattern : Type}.
Variable finditer : pattern -> string -> list string.
Variable nlp : string -> Doc.

(** [pii_config.items()], in insertion order. *)
Abbreviation config := (list (string * (pattern * string))).

Definition regex_type (text : string) (st : state)
    (entry : string * (pattern * string)) : state :=
  let '(pii_type, (pat, placeholder)) := entry in
  fold_left (regex_step pii_type placeholder) (finditer pat text) st.

Definition regex_pass (text : string) (pii_config : config) (st : state)
  : state :=
  fold_left (regex_type text) pii_config st.

Definition initial (text : string) : state :=
  {| anonymized_text := text; lookup_table := []; counters := ∅ |}.

Definition anonymize_state (text : string) (pii_config : config) : state :=
  let st := regex_pass text pii_config (initial text) in
  let doc := nlp (anonymized_text st) in
  entity_pass (ents_and_tokens doc) st.

Definition anonymize_text_including_proper_nouns_and_addresses
    (text : string) (pii_config : config) : string * dict :=
  let st := anonymize_state text pii_config in
  (anonymized_text st, lookup_table st).

End Anonymizer.

(** ** The deanonymiser *)

Definition deanonymize_text (lookup_table : dict) (anonymized_text : string)
  : string :=
  fold_left (fun t '(placeholder, original) => replace placeholder original t)
            lookup_table anonymized_text.

(** ** Notions used in the statements *)

Definition len (x : ent_or_token) : nat := String.length (text_of x).

(** [a] occurs in [b] and differs from it. *)
Definition proper_substring (a b : string) : bool :=
  occurs a b && negb (String.eqb a b).

Definition not_shorter (x y : ent_or_token) : Prop := (len y <= len x)%nat.

(** The candidates of one length, in list order. *)
Definition of_len (n : nat) (l : list ent_or_token) : list ent_or_token :=
  List.filter (fun x => Nat.eqb (len x) n) l.

(** ** Python's [re], as far as [pii_config] needs it

    A backtracking matcher for the fragment of the pattern language that the
    four configured patterns use: character classes, [\b], concatenation,
    alternation and the greedy quantifiers.  Alternatives are tried left to
    right and a quantifier tries one more repetition before it tries to
    stop, as [re] does. *)

Inductive regex :=
| Eps
| Class (p : ascii -> bool)
| WordBoundary
| Seq (r1 r2 : regex)
| Alt (r1 r2 : regex)
| Star (r : regex).

Definition Opt (r : regex) : regex := Alt r Eps.
Definition Plus (r : regex) : regex := Seq r (Star r).

Fixpoint Repeat (n : nat) (r : regex) : regex :=
  match n with
  | O => Eps
  | S n' => Seq r (Repeat n' r)
  end.

Definition AtLeast (n : nat) (r : regex) : regex := Seq (Repeat n r) (Star r).

Fixpoint Lit_re (s : string) : regex :=
  match s with
  | EmptyString => Eps
  | String c s' => Seq (Class (Ascii.eqb c)) (Lit_re s')
  end.

Definition in_range (lo hi c : ascii) : bool :=
  (nat_of_ascii lo <=? nat_of_ascii c)%nat
  && (nat_of_ascii c <=? nat_of_ascii hi)%nat.

Definition is_digit (c : ascii) : bool := in_range "0" "9" c.
Definition is_lower (c : ascii) : bool := in_range "a" "z" c.
Definition is_upper (c : ascii) : bool := in_range "A" "Z" c.
Definition is_alnum (c : ascii) : bool :=
  is_lower c || is_upper c || is_digit c.

(** [\w] and [\s], on the characters below 128 *)
Definition is_word (c : ascii) : bool := is_alnum c || Ascii.eqb c "_".
Definition is_space (c : ascii) : bool :=
  Ascii.eqb c " " || in_range "009" "013" c || in_range "028" "031" c.

Definition one_of (s : string) (c : ascii) : bool :=
  existsb (Ascii.eqb c) (list_ascii_of_string s).

Definition word_before (prev : option ascii) : bool :=
  match prev with
  | Some c => is_word c
  | None => false
  end.

Definition word_here (s : string) : bool :=
  match s with
  | String c _ => is_word c
  | EmptyString => false
  end.

(** [re_match r prev s k]: match [r] at the front of [s], where [prev] is the
    character before [s], and hand the rest to [k]; the answer is the text
    left after the whole match.  A repetition that consumes nothing is not
    taken again. *)
Fixpoint re_match (r : regex) (prev : option ascii) (s : string)
    (k : option ascii -> string -> option string) {struct r}
  : option string :=
  match r with
  | Eps => k prev s
  | Class p =>
      match s with
      | String c s' => if p c then k (Some c) s' else None
      | EmptyString => None
      end
  | WordBoundary =>
      if xorb (word_before prev) (word_here s) then k prev s else None
  | Seq r1 r2 => re_match r1 prev s (fun prev' s' => re_match r2 prev' s' k)
  | Alt r1 r2 =>
      match re_match r1 prev s k with
      | Some rest => Some rest
      | None => re_match r2 prev s k
      end
  | Star r1 =>
      (fix loop (fuel : nat) (prev : option ascii) (s : string)
         : option string :=
         match fuel with
         | O => k prev s
         | S fuel' =>
             match
               re_match r1 prev s
                 (fun prev' s' =>
                    if (String.length s' <? String.length s)%nat
                    then loop fuel' prev' s'
                    else None)
             with
             | Some rest => Some rest
             | None => k prev s
             end
         end) (String.length s) prev s
  end.

Definition last_char (prev : option ascii) (s : string) : option ascii :=
  match rev (list_ascii_of_string s) with
  | c :: _ => Some c
  | [] => prev
  end.

(** The matches of [re.finditer]: leftmost first, the search resuming where
    the previous match ended (one character further after an empty match). *)
Fixpoint finditer_from (fuel : nat) (r : regex) (prev : option ascii)
    (s : string) : list string :=
  match fuel with
  | O => []
  | S fuel' =>
      let advance :=
        match s with
        | String c s' => finditer_from fuel' r (Some c) s'
        | EmptyString => []
        end in
      match re_match r prev s (fun _ rest => Some rest) with
      | Some rest =>
          let n := String.length s - String.length rest in
          let group := substring 0 n s in
          match n with
          | O => group :: advance
          | S _ => group :: finditer_from fuel' r (last_char prev group) rest
          end
      | None => advance
      end
  end.

Definition re_finditer (r : regex) (s : string) : list string :=
  finditer_from (S (String.length s)) r None s.

(** *** [pii_config] (lines 74-79) *)

(** [[-.\s]?] *)
Definition sep : regex := Opt (Class (fun c => one_of "-." c || is_space c)).
Definition digits (n : nat) : regex := Repeat n (Class is_digit).

(** [\b\d{3}[-.\s]?\d{3}[-.\s]?\d{4}\b] *)
Definition phone_number_re : regex :=
  Seq WordBoundary
    (Seq (digits 3) (Seq sep (Seq (digits 3) (Seq sep
       (Seq (digits 4) WordBoundary))))).

(** [\b[A-Za-z0-9._%+-]+@[A-Za-z0-9.-]+\.[A-Z|a-z]{2,}\b] *)
Definition text_address_re : regex :=
  Seq WordBoundary
    (Seq (Plus (Class (fun c => is_alnum c || one_of "._%+-" c)))
    (Seq (Lit_re "@")
    (Seq (Plus (Class (fun c => is_alnum c || one_of ".-" c)))
    (Seq (Lit_re ".")
    (Seq (AtLeast 2 (Class (fun c => is_upper c || is_lower c
                                     || Ascii.eqb c "|")))
         WordBoundary))))).

(** [\b\d{3}-\d{2}-\d{4}\b] *)
Definition social_security_number_re : regex :=
  Seq WordBoundary
    (Seq (digits 3) (Seq (Lit_re "-") (Seq (digits 2) (Seq (Lit_re "-")
       (Seq (digits 4) WordBoundary))))).

(** [\b(?:http://|https://)?(?:www\.)?[a-zA-Z0-9./]+\.[a-z]{2,}\b] *)
Definition website_re : regex :=
  Seq WordBoundary
    (Seq (Opt (Alt (Lit_re "http://") (Lit_re "https://")))
    (Seq (Opt (Lit_re "www."))
    (Seq (Plus (Class (fun c => is_alnum c || one_of "./" c)))
    (Seq (Lit_re ".")
    (Seq (AtLeast 2 (Class is_lower)) WordBoundary))))).

Definition pii_config : list (string * (regex * string)) :=
  [ ("phone_number", (phone_number_re, "[PHONE]"));
    ("text_address", (text_address_re, "[EMAIL]"));
    ("social_security_number", (social_security_number_re, "[SSN]"));
    ("website", (website_re, "[WEBSITE]")) ].

(** ** What the loops write into the lookup table

    The assignments [lookup_table[k] = v] in the order in which the two
    loops make them; a key may be written more than once. *)

Definition regex_record (pii_type placeholder : string) (st : state)
    (original : string) : string * string :=
  (placeholder +:+ str (counters st !!! pii_type + 1), original).

Fixpoint regex_type_records (pii_type placeholder : string)
    (matches : list string) (st : state) : dict :=
  match matches with
  | [] => []
  | original :: rest =>
      regex_record pii_type placeholder st original
      :: regex_type_records pii_type placeholder rest
           (regex_step pii_type placeholder st original)
  end.

Definition entity_record (st : state) (x : ent_or_token) : dict :=
  if allowed (label_of x) && occurs (text_of x) (anonymized_text st)
  then [(entity_placeholder (label_of x) (counters st !!! label_of x + 1),
         text_of x)]
  else [].

Fixpoint entity_records (l : list ent_or_token) (st : state) : dict :=
  match l with
  | [] => []
  | x :: l' => (entity_record st x ++ entity_records l' (entity_step st x))%list
  end.

Section Records.

Context {pattern : Type}.
Variable finditer : pattern -> string -> list string.
Variable nlp : string -> Doc.

Fixpoint regex_records (text : string)
    (pii_config : list (string * (pattern * string))) (st : state) : dict :=
  match pii_config with
  | [] => []
  | entry :: rest =>
      (regex_type_records (fst entry) (snd (snd entry))
         (finditer (fst (snd entry)) text) st
       ++ regex_records text rest (regex_type finditer text st entry))%list
  end.

Definition records (text : string)
    (pii_config : list (string * (pattern * string))) : dict :=
  let st := regex_pass finditer text pii_config (initial text) in
  (regex_records text pii_config (initial text)
   ++ entity_records (ents_and_tokens (nlp (anonymized_text st))) st)%list.

End Records.

(** Replaying a list of assignments on a dictionary. *)
Definition dict_set_all (recs : dict) (d : dict) : dict :=
  fold_left (fun d kv => dict_set (fst kv) (snd kv) d) recs d.

(** ** The claims that the code does not meet, as they are stated *)

(** C3 as stated: a candidate whose text is absent is skipped and nothing
    changes, the label's counter included. *)
Definition skipped_candidate_changes_nothing : Prop :=
  forall (st : state) (x : ent_or_token),
    allowed (label_of x) = true ->
    occurs (text_of x) (anonymized_text st) = false ->
    entity_step st x = st.

(** C4 as stated: whenever one candidate's text is a proper substring of
    another's, the output has a placeholder for the whole longer phrase. *)
Definition longer_phrase_gets_placeholder {pattern : Type}
    (finditer : pattern -> string -> list string) (nlp : string -> Doc)
    (text : string) (pii_config : list (string * (pattern * string)))
  : Prop :=
  let st := regex_pass finditer text pii_config (initial text) in
  let out :=
    anonymize_text_including_proper_nouns_and_addresses
      finditer nlp text pii_config in
  forall a b : ent_or_token,
    In a (ents_and_tokens (nlp (anonymized_text st))) ->
    In b (ents_and_tokens (nlp (anonymized_text st))) ->
    proper_substring (text_of a) (text_of b) = true ->
    exists k, dict_get k (snd out) = Some (text_of b)
              /\ occurs k (fst out) = true.

(** C6 as stated: no key is written with two different originals, and a key
    written more than once keeps the original written first. *)
Definition first_recorded_wins {pattern : Type}
    (finditer : pattern -> string -> list string) (nlp : string -> Doc)
    (text : string) (pii_config : list (string * (pattern * string)))
  : Prop :=
  let recs := records finditer nlp text pii_config in
  let out :=
    anonymize_text_including_proper_nouns_and_addresses
      finditer nlp text pii_config in
  (forall k o1 o2, In (k, o1) recs -> In (k, o2) recs -> o1 = o2) /\
  (forall k, dict_get k (snd out) = dict_get k recs).

(** C7 as stated, for [pii_config]: a website match that is a fragment of an
    email match gets no lookup entry and does not advance the website
    counter. *)
Definition url_does_not_fire_on_email_fragment (text : string) : Prop :=
  let st := regex_pass re_finditer text pii_config (initial text) in
  forall e d : string,
    In e (re_finditer text_address_re text) ->
    In d (re_finditer website_re text) ->
    proper_substring d e = true ->
    (forall k, dict_get k (lookup_table st) <> Some d) /\
    counters st !!! "website"
    = List.length (List.filter (fun d' => negb (proper_substring d' e))
                               (re_finditer website_re text)).

(** C8 as stated: on the output of an anonymize call, deanonymising twice is
    deanonymising once. *)
Definition deanonymize_idempotent_on {pattern : Type}
    (finditer : pattern -> string -> list string) (nlp : string -> Doc)
    (text : string) (pii_config : list (string * (pattern * string)))
  : Prop :=
  let out :=
    anonymize_text_including_proper_nouns_and_addresses
      finditer nlp text pii_config in
  forall t : string,
    deanonymize_text (snd out) (deanonymize_text (snd out) t)
    = deanonymize_text (snd out) t.

(** ** Sample documents

    The analyses a tagger returns for the sample sentences used below. *)

Definition no_entities : string -> Doc := fun _ => mkDoc [] [].

Definition nlp_due_june : string -> Doc := fun _ =>
  mkDoc [mkSpan "June 2020" "DATE"]
        [mkToken "Due" "VERB"; mkToken "June" "PROPN"; mkToken "2020" "NUM"].

Definition nlp_paul : string -> Doc := fun _ =>
  mkDoc [mkSpan "Paul Haggerty" "PERSON"]
        [mkToken "Paul" "PROPN"; mkToken "Haggerty" "PROPN";
         mkToken "met" "VERB"; mkToken "Paul" "PROPN"].

Definition colliding_config : list (string * (regex * string)) :=
  [ ("first_name", (Lit_re "foo", "[X]"));
    ("last_name", (Lit_re "bar", "[X]")) ].

(** The state after ["Sincerely, Paul Haggerty"] has had its PERSON entity
    replaced, and the next candidate, the token [Haggerty]. *)
Definition after_paul_haggerty : state :=
  {| anonymized_text := "Sincerely, [PERSON1]";
     lookup_table := [("[PERSON1]", "Paul Haggerty")];
     counters := {["PERSON" := 1]} |}.

Definition token_haggerty : ent_or_token := Tok (mkToken "Haggerty" "PROPN").

(** ** The regex pass in the words of the specification

    For each configured type in insertion order, for each match of the
    type's pattern in the original text, left to right: increment the type's
    counter, form [placeholder + counter], replace the first remaining
    occurrence of the match in the working text, record the pair.  The
    counter of a type starts at zero. *)

Fixpoint spec_replace_matches (placeholder : string) (counter : nat)
    (matches : list string) (working : string) (table : dict)
  : string * dict :=
  match matches with
  | [] => (working, table)
  | original :: rest =>
      let counter' := counter + 1 in
      let key := placeholder +:+ str counter' in
      spec_replace_matches placeholder counter' rest
        (replace_first original key working) (dict_set key original table)
  end.

Fixpoint spec_regex_pass {pattern : Type}
    (finditer : pattern -> string -> list string) (original_text : string)
    (pii_config : list (string * (pattern * string)))
    (working : string) (table : dict) : string * dict :=
  match pii_config with
  | [] => (working, table)
  | entry :: rest =>
      let out :=
        spec_replace_matches (snd (snd entry)) 0
          (finditer (fst (snd entry)) original_text) working table in
      spec_regex_pass finditer original_text rest (fst out) (snd out)
  end.

(** A tagger that marks the last word of ["555-123-4567 is my PHONE"] as a
    proper noun, and one that does so for ["123-45-6789 is my SSN"]. *)
Definition nlp_my_phone : string -> Doc := fun _ =>
  mkDoc [] [mkToken "is" "AUX"; mkToken "my" "PRON"; mkToken "PHONE" "PROPN"].

Definition nlp_my_ssn : string -> Doc := fun _ =>
  mkDoc [] [mkToken "is" "AUX"; mkToken "my" "PRON"; mkToken "SSN" "PROPN"].

(** ** Notions for the round trip *)

(** [c in s] for a single character. *)
Fixpoint has_char (c : ascii) (s : string) : bool :=
  match s with
  | EmptyString => false
  | String d s' => Ascii.eqb c d || has_char c s'
  end.

(** A key that starts with ["["] and has no other ["["]. *)
Definition bracketed (k : string) : bool :=
  match k with
  | EmptyString => false
  | String c rest => Ascii.eqb c "[" && negb (has_char "[" rest)
  end.

Definition is_prefix (a b : string) : bool :=
  match strip_prefix a b with
  | Some _ => true
  | None => false
  end.

(** No key of the list is a prefix of a key at another position. *)
Fixpoint prefix_free (ks : list string) : bool :=
  match ks with
  | [] => true
  | k :: ks' =>
      forallb (fun k' => negb (is_prefix k k') && negb (is_prefix k' k)) ks'
      && prefix_free ks'
  end.

(** The working text as pieces: stretches still original, and placeholders
    with the original each one stands for. *)
Inductive piece :=
| Lit (s : string)
| Ph (k o : string).

Definition shown (p : piece) : string :=
  match p with
  | Lit s => s
  | Ph k _ => k
  end.

Definition meant (p : piece) : string :=
  match p with
  | Lit s => s
  | Ph _ o => o
  end.

Fixpoint anon_of (ps : list piece) : string :=
  match ps with
  | [] => ""
  | p :: ps' => shown p +:+ anon_of ps'
  end.

Fixpoint orig_of (ps : list piece) : string :=
  match ps with
  | [] => ""
  | p :: ps' => meant p +:+ orig_of ps'
  end.

(** The text before and after the leftmost occurrence of [o] in [s]. *)
Fixpoint cut (o s : string) : option (string * string) :=
  match strip_prefix o s with
  | Some rest => Some ("", rest)
  | None =>
      match s with
      | EmptyString => None
      | String c s' =>
          match cut o s' with
          | Some (a, b) => Some (String c a, b)
          | None => None
          end
      end
  end.

(** Replace [o] by the placeholder [k] in the first original stretch that
    contains it. *)
Fixpoint place (o k : string) (ps : list piece) : list piece :=
  match ps with
  | [] => []
  | Lit s :: ps' =>
      match cut o s with
      | Some (a, b) => Lit a :: Ph k o :: Lit b :: ps'
      | None => Lit s :: place o k ps'
      end
  | Ph k' o' :: ps' => Ph k' o' :: place o k ps'
  end.

(** Every recorded replacement, as [replace_first] makes it on the working
    text, is the replacement inside a stretch that is still original: it
    touches no placeholder already inserted. *)
Fixpoint clean (recs : dict) (ps : list piece) : bool :=
  match recs with
  | [] => true
  | (k, o) :: recs' =>
      String.eqb (anon_of (place o k ps)) (replace_first o k (anon_of ps))
      && clean recs' (place o k ps)
  end.

Definition place_all (recs : dict) (ps : list piece) : list piece :=
  fold_left (fun ps kv => place (snd kv) (fst kv) ps) recs ps.

(** The text after the recorded replacements. *)
Definition replace_all_recorded (recs : dict) (text : string) : string :=
  fold_left (fun t kv => replace_first (snd kv) (fst kv) t) recs text.

(** A placeholder gives way to its original. *)
Fixpoint restore (k : string) (ps : list piece) : list piece :=
  match ps with
  | [] => []
  | Lit s :: ps' => Lit s :: restore k ps'
  | Ph k' o :: ps' =>
      (if String.eqb k' k then Lit o else Ph k' o) :: restore k ps'
  end.

(** The stretches still original hold no ["["]. *)
Definition lits_plain (ps : list piece) : Prop :=
  forall s, In (Lit s) ps -> has_char "[" s = false.

(** Number of places of [s] at which [sub] starts. *)
Fixpoint occurrences (sub s : string) : nat :=
  (if is_prefix sub s then 1 else 0)
  + match s with
    | EmptyString => 0
    | String _ s' => occurrences sub s'
    end.

(** C1 as stated: no recorded original occurs more than once in the text,
    no counter has reached ten and no recorded placeholder is a prefix of
    another one; then deanonymising the output gives the text back. *)
Definition round_trip_as_stated {pattern : Type}
    (finditer : pattern -> string -> list string) (nlp : string -> Doc)
    (text : string) (pii_config : list (string * (pattern * string)))
  : Prop :=
  let recs := records finditer nlp text pii_config in
  let out :=
    anonymize_text_including_proper_nouns_and_addresses
      finditer nlp text pii_config in
  forallb (fun kv => (occurrences (snd kv) text <=? 1)%nat) recs = true ->
  map_Forall (fun _ n => (n < 10)%nat)
             (counters (anonymize_state finditer nlp text pii_config)) ->
  prefix_free (keys recs) = true ->
  deanonymize_text (snd out) (fst out) = text.

(** A tagger's analysis of
    ["Call Paul Haggerty at 123-456-7890 or a@b.com"]. *)
Definition nlp_contact : string -> Doc := fun _ =>
  mkDoc [mkSpan "Paul Haggerty" "PERSON"]
        [mkToken "Call" "VERB"; mkToken "Paul" "PROPN";
         mkToken "Haggerty" "PROPN"; mkToken "at" "ADP"; mkToken "or" "CCONJ"].

(** Ten persons in one sentence. *)
Definition ten_names : list string :=
  ["Ann"; "Bob"; "Cid"; "Dan"; "Eve"; "Fay"; "Gus"; "Hal"; "Ian"; "Jon"].

Definition ten_persons_text : string := String.concat " " ten_names.

Definition nlp_ten_persons : string -> Doc := fun _ =>
  mkDoc (map (fun name => mkSpan name "PERSON") ten_names) [].

(** ** Notions for the further properties *)

(** Number of candidates that carry the label [lbl]. *)
Definition count_label (lbl : string) (l : list ent_or_token) : nat :=
  List.length (List.filter (fun x => String.eqb (label_of x) lbl) l).

(** A tagger that finds a date and no proper noun. *)
Definition nlp_date_only : string -> Doc := fun _ =>
  mkDoc [mkSpan "2020" "DATE"]
        [mkToken "nothing" "PRON"; mkToken "due" "ADJ"; mkToken "2020" "NUM"].

(** What a key of the lookup table is made of: the configured prefix and
    the number after it, or the label and the number between brackets. *)
Inductive key_descr :=
| RegexKey (placeholder : string) (n : nat)
| EntityKey (label : string) (n : nat).

Definition render (d : key_descr) : string :=
  match d with
  | RegexKey placeholder n => placeholder +:+ str n
  | EntityKey label n => entity_placeholder label n
  end.

(** The keys one PII type writes when its counter stands at [c]. *)
Fixpoint regex_type_descrs (placeholder : string) (c : nat)
    (matches : list string) : list key_descr :=
  match matches with
  | [] => []
  | _ :: rest =>
      RegexKey placeholder (c + 1) :: regex_type_descrs placeholder (c + 1) rest
  end.

(** The keys the entity pass writes. *)
Fixpoint entity_descrs (l : list ent_or_token) (st : state)
  : list key_descr :=
  match l with
  | [] => []
  | x :: l' =>
      ((if allowed (label_of x) && occurs (text_of x) (anonymized_text st)
        then [EntityKey (label_of x) (counters st !!! label_of x + 1)]
        else [])
       ++ entity_descrs l' (entity_step st x))%list
  end.

Section Descriptors.

Context {pattern : Type}.
Variable finditer : pattern -> string -> list string.
Variable nlp : string -> Doc.

Fixpoint regex_descrs (text : string)
    (pii_config : list (string * (pattern * string))) (st : state)
  : list key_descr :=
  match pii_config with
  | [] => []
  | entry :: rest =>
      (regex_type_descrs (snd (snd entry)) (counters st !!! fst entry)
         (finditer (fst (snd entry)) text)
       ++ regex_descrs text rest (regex_type finditer text st entry))%list
  end.

Definition descrs (text : string)
    (pii_config : list (string * (pattern * string))) : list key_descr :=
  let st := regex_pass finditer text pii_config (initial text) in
  (regex_descrs text pii_config (initial text)
   ++ entity_descrs (ents_and_tokens (nlp (anonymized_text st))) st)%list.

End Descriptors.

(** A prefix that ends with ["]"] and has no other ["]"]. *)
Fixpoint closed (s : string) : bool :=
  match s with
  | EmptyString => false
  | String c rest =>
      match rest with
      | EmptyString => Ascii.eqb c "]"
      | String _ _ => negb (Ascii.eqb c "]") && closed rest
      end
  end.

Fixpoint has_digit (s : string) : bool :=
  match s with
  | EmptyString => false
  | String c rest => is_digit c || has_digit rest
  end.

(** A key whose parts are as the anonymiser needs them to tell keys apart:
    a closed prefix, or an allowed label. *)
Definition key_ok (d : key_descr) : bool :=
  match d with
  | RegexKey placeholder _ => closed placeholder
  | EntityKey label _ => allowed label
  end.

(** The same with a prefix free of digits and a number from 1 to 9. *)
Definition key_small (d : key_descr) : bool :=
  match d with
  | RegexKey placeholder n =>
      closed placeholder && negb (has_digit placeholder)
      && (1 <=? n)%nat && (n <=? 9)%nat
  | EntityKey label _ => allowed label
  end.

(** ** Notions for the placeholders of the entity pass *)

(** Between its brackets an entity placeholder holds an allowed label and a
    decimal number: upper-case letters and digits. *)
Definition is_upper_or_digit (c : ascii) : bool := is_upper c || is_digit c.

Fixpoint only_upper_digit (s : string) : bool :=
  match s with
  | EmptyString => true
  | String c s' => is_upper_or_digit c && only_upper_digit s'
  end.

(** A text that cannot be found in a placeholder or across its border: it
    has no bracket, and some character of it is neither an upper-case letter
    nor a digit. *)
Definition plain_name (s : string) : bool :=
  negb (has_char "[" s) && negb (has_char "]" s) && negb (only_upper_digit s).

Definition entity_key (k : string) : Prop :=
  exists label n, allowed label = true /\ k = entity_placeholder label n.

(** What follows an original stretch: nothing, or a placeholder. *)
Definition at_border (r : string) : Prop :=
  r = "" \/ exists r', r = String "[" r'.

(** Pieces as the entity pass leaves them on a text without ["["]: original
    stretches without ["["], no two of them side by side, and entity
    placeholders. *)
Fixpoint tidy (ps : list piece) : Prop :=
  match ps with
  | [] => True
  | Lit s :: ps' =>
      has_char "[" s = false
      /\ match ps' with
         | Lit _ :: _ => False
         | _ => True
         end
      /\ tidy ps'
  | Ph k _ :: ps' => entity_key k /\ tidy ps'
  end.

(** * Properties *)

(** ** Strings *)

Lemma str_app_nil_r (s : string) : s +:+ "" = s.
Proof. induction s as [|c s IH]; simpl; [reflexivity | now rewrite IH]. Qed.

Lemma str_app_assoc (a b c : string) : (a +:+ b) +:+ c = a +:+ (b +:+ c).
Proof. induction a as [|x a IH]; simpl; [reflexivity | now rewrite IH]. Qed.

Lemma str_app_length (a b : string) :
  String.length (a +:+ b) = String.length a + String.length b.
Proof. induction a as [|x a IH]; simpl; [reflexivity | now rewrite IH]. Qed.

Lemma strip_prefix_app (p r : string) : strip_prefix p (p +:+ r) = Some r.
Proof.
  induction p as [|a p IH]; simpl; [reflexivity|].
  now rewrite Ascii.eqb_refl.
Qed.

Lemma strip_prefix_Some (p s r : string) :
  strip_prefix p s = Some r -> s = p +:+ r.
Proof.
  revert s; induction p as [|a p IH]; intros s H; simpl in *.
  - now inversion H.
  - destruct s as [|b s]; [discriminate|].
    destruct (Ascii.eqb_spec a b) as [->|]; [|discriminate].
    now rewrite (IH _ H).
Qed.

Lemma strip_prefix_None (p s : string) :
  strip_prefix p s = None <-> forall r, s <> p +:+ r.
Proof.
  split.
  - intros H r ->. now rewrite strip_prefix_app in H.
  - intros H. destruct (strip_prefix p s) as [r|] eqn:E; [|reflexivity].
    now apply strip_prefix_Some, H in E.
Qed.

Lemma occurs_app (sub a b : string) : occurs sub (a +:+ sub +:+ b) = true.
Proof.
  induction a as [|c a IH]; simpl.
  - destruct sub; simpl.
    + now destruct b.
    + now rewrite Ascii.eqb_refl, strip_prefix_app.
  - now destruct (strip_prefix sub (String c (a +:+ sub +:+ b))).
Qed.

Lemma occurs_split (sub s : string) :
  occurs sub s = true -> exists a b, s = a +:+ sub +:+ b.
Proof.
  induction s as [|c s IH]; simpl.
  - destruct (strip_prefix sub "") as [r|] eqn:E; [|discriminate].
    intros _. exists "", r. exact (strip_prefix_Some _ _ _ E).
  - destruct (strip_prefix sub (String c s)) as [r|] eqn:E.
    + intros _. exists "", r. exact (strip_prefix_Some _ _ _ E).
    + intros H. destruct (IH H) as (a & b & ->). now exists (String c a), b.
Qed.

Lemma occurs_false_tail (sub : string) (c : ascii) (s : string) :
  occurs sub (String c s) = false ->
  strip_prefix sub (String c s) = None /\ occurs sub s = false.
Proof.
  simpl. destruct (strip_prefix sub (String c s)); [discriminate | now split].
Qed.

(** *** [replace_first] *)

Lemma replace_first_absent (old new s : string) :
  occurs old s = false -> replace_first old new s = s.
Proof.
  induction s as [|c s IH]; intros H.
  - simpl in *. now destruct (strip_prefix old "").
  - apply occurs_false_tail in H as [E H].
    simpl replace_first. rewrite E. now rewrite IH.
Qed.

Lemma replace_first_here (old new r : string) :
  replace_first old new (old +:+ r) = new +:+ r.
Proof.
  destruct (old +:+ r) eqn:E; simpl; rewrite <- E, strip_prefix_app;
    reflexivity.
Qed.

Lemma replace_first_later (old new : string) (c : ascii) (s : string) :
  strip_prefix old (String c s) = None ->
  replace_first old new (String c s) = String c (replace_first old new s).
Proof. intros E. simpl. now rewrite E. Qed.

(** *** [replace] *)

Lemma replace_scan_drop (old new a s : string) :
  replace_scan old new (String.length a) (a +:+ s) = replace_scan old new 0 s.
Proof. induction a as [|c a IH]; simpl; [now destruct s | exact IH]. Qed.

Lemma replace_nil (old new : string) : old <> "" -> replace old new "" = "".
Proof. now destruct old. Qed.

Lemma replace_here (old new r : string) :
  old <> "" -> replace old new (old +:+ r) = new +:+ replace old new r.
Proof.
  destruct old as [|a old]; [congruence|]. intros _.
  unfold replace. cbn [String.append replace_scan].
  change (String a (old +:+ r)) with (String a old +:+ r).
  rewrite strip_prefix_app.
  replace (String.length (String a old) - 1) with (String.length old)
    by (cbn [String.length]; lia).
  now rewrite replace_scan_drop.
Qed.

Lemma replace_later (old new : string) (c : ascii) (s : string) :
  strip_prefix old (String c s) = None ->
  replace old new (String c s) = String c (replace old new s).
Proof.
  destruct old as [|a old]; [discriminate|]. intros E.
  unfold replace. cbn [replace_scan]. now rewrite E.
Qed.

Lemma replace_absent (old new s : string) :
  occurs old s = false -> replace old new s = s.
Proof.
  induction s as [|c s IH]; intros H.
  - destruct old; [discriminate | reflexivity].
  - apply occurs_false_tail in H as [E H].
    rewrite replace_later by exact E. now rewrite IH.
Qed.

(** ** The deanonymiser *)

Lemma deanonymize_nil (t : string) : deanonymize_text [] t = t.
Proof. reflexivity. Qed.

Lemma deanonymize_cons (k v : string) (L : dict) (t : string) :
  deanonymize_text ((k, v) :: L) t = deanonymize_text L (replace k v t).
Proof. reflexivity. Qed.

Lemma deanonymize_app (L1 L2 : dict) (t : string) :
  deanonymize_text (L1 ++ L2) t = deanonymize_text L2 (deanonymize_text L1 t).
Proof. unfold deanonymize_text. now rewrite fold_left_app. Qed.

Lemma deanonymize_absent (L : dict) (t : string) :
  (forall k, In k (keys L) -> occurs k t = false) -> deanonymize_text L t = t.
Proof.
  induction L as [|[k v] L IH]; intros H; [reflexivity|].
  rewrite deanonymize_cons, replace_absent by (apply H; now left).
  apply IH. intros k' Hk'. apply H. now right.
Qed.

(** C5. [deanonymize_text] walks the pairs of the lookup table in order and
    replaces every occurrence of each placeholder by its original: the walk
    is the left fold of [replace], and [replace] rewrites the leftmost
    occurrence and goes on in the rest of the text, whereas the anonymiser's
    [replace_first] stops after the leftmost occurrence. *)
Theorem deanonymize_replaces_all_occurrences :
  (forall t, deanonymize_text [] t = t) /\
  (forall k v L t,
      deanonymize_text ((k, v) :: L) t = deanonymize_text L (replace k v t)) /\
  (forall k v, k <> "" -> replace k v "" = "") /\
  (forall k v r, k <> "" -> replace k v (k +:+ r) = v +:+ replace k v r) /\
  (forall k v c s,
      strip_prefix k (String c s) = None ->
      replace k v (String c s) = String c (replace k v s)) /\
  (forall k v r, replace_first k v (k +:+ r) = v +:+ r) /\
  (forall k v c s,
      strip_prefix k (String c s) = None ->
      replace_first k v (String c s) = String c (replace_first k v s)).
Proof.
  repeat split.
  - apply replace_nil.
  - intros; now apply replace_here.
  - intros; now apply replace_later.
  - intros; apply replace_first_here.
  - intros; now apply replace_first_later.
Qed.

Lemma deanonymize_replaces_all_occurrences_witness :
  replace "[P1]" "Ann" ("[P1]" +:+ " and [P1]")
  = "Ann" +:+ replace "[P1]" "Ann" " and [P1]"
  /\ deanonymize_text [("[P1]", "Ann")] "[P1] and [P1]" = "Ann and Ann".
Proof.
  split.
  - apply (proj1 (proj2 (proj2 (proj2
             deanonymize_replaces_all_occurrences)))).
    discriminate.
  - reflexivity.
Defined.

(** C10. With an empty lookup table [deanonymize_text] returns its input,
    and it returns its input whenever no placeholder of the table occurs in
    the text. *)
Theorem deanonymize_identity :
  (forall t, deanonymize_text [] t = t) /\
  (forall L t,
      (forall k, In k (keys L) -> occurs k t = false) ->
      deanonymize_text L t = t).
Proof. split; [apply deanonymize_nil | apply deanonymize_absent]. Qed.

Lemma deanonymize_identity_witness :
  deanonymize_text [("[PERSON1]", "Paul"); ("[PHONE]1", "555-123-4567")]
                   "nothing to restore"
  = "nothing to restore".
Proof.
  apply (proj2 deanonymize_identity).
  intros k [<-|[<-|[]]]; reflexivity.
Defined.

(** ** The order of [ents_and_tokens] *)

Lemma occurs_length (a b : string) :
  occurs a b = true -> (String.length a <= String.length b)%nat.
Proof.
  intros H. apply occurs_split in H as (p & q & ->).
  rewrite !str_app_length. lia.
Qed.

Lemma str_length_zero (s : string) : String.length s = 0 -> s = "".
Proof. now destruct s. Qed.

Lemma proper_substring_shorter (a b : string) :
  proper_substring a b = true -> (String.length a < String.length b)%nat.
Proof.
  unfold proper_substring. intros [H Hne]%andb_prop.
  apply negb_true_iff, String.eqb_neq in Hne.
  apply occurs_split in H as (p & q & ->).
  rewrite !str_app_length.
  destruct p as [|c p]; [|simpl; lia].
  destruct q as [|c q]; [|simpl; lia].
  exfalso. apply Hne. simpl. now rewrite str_app_nil_r.
Qed.

Lemma insert_by_len_perm (x : ent_or_token) (l : list ent_or_token) :
  Permutation (x :: l) (insert_by_len x l).
Proof.
  induction l as [|y l IH]; simpl; [reflexivity|].
  destruct (Nat.ltb (String.length (text_of x)) (String.length (text_of y)));
    [|reflexivity].
  rewrite perm_swap. now apply perm_skip.
Qed.

Lemma sorted_by_neg_len_perm (l : list ent_or_token) :
  Permutation l (sorted_by_neg_len l).
Proof.
  induction l as [|x l IH]; simpl; [reflexivity|].
  rewrite <- insert_by_len_perm. now apply perm_skip.
Qed.

Lemma insert_by_len_sorted (x : ent_or_token) (l : list ent_or_token) :
  StronglySorted not_shorter l ->
  StronglySorted not_shorter (insert_by_len x l).
Proof.
  induction l as [|y l IH]; intros Hs; simpl.
  - repeat constructor.
  - inversion Hs as [|? ? Hl Hy]; subst.
    destruct (Nat.ltb_spec (String.length (text_of x))
                           (String.length (text_of y))) as [Hlt|Hge].
    + constructor; [now apply IH|].
      apply (Permutation_Forall (insert_by_len_perm x l)).
      constructor; [unfold not_shorter, len; lia | exact Hy].
    + constructor; [exact Hs|].
      constructor; [exact Hge|].
      eapply List.Forall_impl; [|exact Hy].
      unfold not_shorter, len. intros z Hz. lia.
Qed.

Lemma sorted_by_neg_len_sorted (l : list ent_or_token) :
  StronglySorted not_shorter (sorted_by_neg_len l).
Proof.
  induction l as [|x l IH]; simpl; [constructor|].
  now apply insert_by_len_sorted.
Qed.

Lemma insert_by_len_stable (n : nat) (x : ent_or_token)
    (l : list ent_or_token) :
  of_len n (insert_by_len x l) = of_len n (x :: l).
Proof.
  induction l as [|y l IH]; [reflexivity|].
  cbn [insert_by_len].
  destruct (Nat.ltb_spec (String.length (text_of x))
                         (String.length (text_of y))) as [Hlt|Hge];
    [|reflexivity].
  unfold of_len in *. cbn [List.filter] in *. rewrite IH.
  destruct (Nat.eqb_spec (len y) n) as [Hy|Hy];
    destruct (Nat.eqb_spec (len x) n) as [Hx|Hx]; try reflexivity.
  unfold len in *. lia.
Qed.

Lemma sorted_by_neg_len_stable (n : nat) (l : list ent_or_token) :
  of_len n (sorted_by_neg_len l) = of_len n l.
Proof.
  induction l as [|x l IH]; [reflexivity|].
  cbn [sorted_by_neg_len]. rewrite insert_by_len_stable.
  unfold of_len in *. cbn [List.filter]. now rewrite IH.
Qed.

Lemma sorted_later_not_longer (l1 l2 : list ent_or_token)
    (x y : ent_or_token) :
  StronglySorted not_shorter (l1 ++ x :: l2) -> In y l2 ->
  (len y <= len x)%nat.
Proof.
  induction l1 as [|z l1 IH]; simpl; intros Hs Hy.
  - inversion Hs as [|? ? _ Hall]; subst.
    rewrite List.Forall_forall in Hall. now apply Hall.
  - inversion Hs; subst. now apply IH.
Qed.

(** ** The entity pass *)

Lemma entity_pass_app (l1 l2 : list ent_or_token) (st : state) :
  entity_pass (l1 ++ l2) st = entity_pass l2 (entity_pass l1 st).
Proof. unfold entity_pass. now rewrite fold_left_app. Qed.

Lemma entity_step_disallowed (st : state) (x : ent_or_token) :
  allowed (label_of x) = false -> entity_step st x = st.
Proof. unfold entity_step. now intros ->. Qed.

Lemma entity_step_present (st : state) (x : ent_or_token) :
  allowed (label_of x) = true ->
  occurs (text_of x) (anonymized_text st) = true ->
  entity_step st x =
  let n := counters st !!! label_of x + 1 in
  {| anonymized_text :=
       replace_first (text_of x) (entity_placeholder (label_of x) n)
                     (anonymized_text st);
     lookup_table :=
       dict_set (entity_placeholder (label_of x) n) (text_of x)
                (lookup_table st);
     counters := <[label_of x := n]> (counters st) |}.
Proof. unfold entity_step. now intros -> ->. Qed.

Lemma entity_step_absent (st : state) (x : ent_or_token) :
  allowed (label_of x) = true ->
  occurs (text_of x) (anonymized_text st) = false ->
  entity_step st x =
  {| anonymized_text := anonymized_text st;
     lookup_table := lookup_table st;
     counters := <[label_of x := counters st !!! label_of x + 1]>
                   (counters st) |}.
Proof. unfold entity_step. now intros -> ->. Qed.

(** Candidates that are filtered out or whose text is absent leave the text
    and the lookup table as they are. *)
Lemma entity_pass_all_skipped (l : list ent_or_token) (st : state) :
  Forall (fun x => allowed (label_of x) = true ->
                   occurs (text_of x) (anonymized_text st) = false) l ->
  anonymized_text (entity_pass l st) = anonymized_text st /\
  lookup_table (entity_pass l st) = lookup_table st.
Proof.
  revert st. induction l as [|x l IH]; intros st Hall; [now split|].
  inversion Hall as [|? ? Hx Hl]; subst.
  cbn [entity_pass fold_left]. fold (entity_pass l (entity_step st x)).
  destruct (allowed (label_of x)) eqn:Hal.
  - rewrite entity_step_absent by auto.
    destruct (IH {| anonymized_text := anonymized_text st;
                    lookup_table := lookup_table st;
                    counters := <[label_of x :=
                                    counters st !!! label_of x + 1]>
                                  (counters st) |}) as [H1 H2];
      [exact Hl | now split].
  - rewrite entity_step_disallowed by exact Hal. now apply IH.
Qed.

(** C3, as stated, fails: the counter of a skipped candidate's label is
    incremented all the same (line 51 runs before the test of line 53). *)
Lemma skipped_candidate_counter_moves : ~ skipped_candidate_changes_nothing.
Proof.
  intros H.
  specialize (H after_paul_haggerty token_haggerty eq_refl eq_refl).
  apply (f_equal (fun st => counters st !!! "PROPN")) in H.
  vm_compute in H. discriminate H.
Qed.

(** C3, amended.  A candidate whose label is not allowed leaves the state
    as it is.  For an allowed label the counter of the label is incremented
    whether or not the candidate's text occurs; if the text does not occur,
    the text and the lookup table are unchanged (no entry is created); if it
    occurs, its first occurrence is replaced by ["[" label counter "]"] and
    the placeholder is mapped to the text. *)
Theorem entity_step_skip_semantics (st : state) (x : ent_or_token) :
  let label := label_of x in
  let n := counters st !!! label + 1 in
  (allowed label = false -> entity_step st x = st) /\
  (allowed label = true ->
   counters (entity_step st x) = <[label := n]> (counters st) /\
   counters (entity_step st x) !!! label = n /\
   (occurs (text_of x) (anonymized_text st) = false ->
    anonymized_text (entity_step st x) = anonymized_text st /\
    lookup_table (entity_step st x) = lookup_table st) /\
   (occurs (text_of x) (anonymized_text st) = true ->
    anonymized_text (entity_step st x)
    = replace_first (text_of x) ("[" +:+ label +:+ str n +:+ "]")
                    (anonymized_text st) /\
    lookup_table (entity_step st x)
    = dict_set ("[" +:+ label +:+ str n +:+ "]") (text_of x)
               (lookup_table st))).
Proof.
  cbv zeta. split; [apply entity_step_disallowed|].
  intros Hal.
  destruct (occurs (text_of x) (anonymized_text st)) eqn:Hocc.
  - rewrite entity_step_present by assumption. cbn.
    rewrite lookup_total_insert_eq. repeat split; discriminate.
  - rewrite entity_step_absent by assumption. cbn.
    rewrite lookup_total_insert_eq. repeat split; discriminate.
Qed.

Lemma entity_step_skip_semantics_witness :
  counters (entity_step after_paul_haggerty token_haggerty)
  = <["PROPN" := 1]> (counters after_paul_haggerty)
  /\ lookup_table (entity_step after_paul_haggerty token_haggerty)
     = lookup_table after_paul_haggerty.
Proof.
  destruct (proj2 (entity_step_skip_semantics after_paul_haggerty
                     token_haggerty) eq_refl) as (Hc & _ & Habs & _).
  split; [exact Hc | exact (proj2 (Habs eq_refl))].
Defined.

(** ** Longest first *)

(** C4, as stated, fails: a longer candidate whose label is filtered out
    (here a DATE) gets no placeholder, and its part is substituted alone. *)
Lemma longer_phrase_not_covered :
  ~ longer_phrase_gets_placeholder re_finditer nlp_due_june
      "Due June 2020" pii_config.
Proof.
  intros H. cbv zeta in H.
  destruct (H (Tok (mkToken "June" "PROPN"))
              (Ent (mkSpan "June 2020" "DATE")))
    as (k & Hk & _).
  - vm_compute. auto.
  - vm_compute. auto.
  - reflexivity.
  - assert (E : snd (anonymize_text_including_proper_nouns_and_addresses
                       re_finditer nlp_due_june "Due June 2020" pii_config)
               = [("[PROPN1]", "June")]) by (vm_compute; reflexivity).
    rewrite E in Hk. cbn [dict_get] in Hk.
    destruct (String.eqb "[PROPN1]" k); discriminate.
Qed.

(** ** Dictionaries *)

Lemma dict_get_set (k k' v : string) (d : dict) :
  dict_get k (dict_set k' v d)
  = if String.eqb k' k then Some v else dict_get k d.
Proof.
  induction d as [|[k0 v0] d IH]; cbn [dict_set dict_get].
  - reflexivity.
  - destruct (String.eqb_spec k0 k') as [->|Hne]; cbn [dict_get].
    + now destruct (String.eqb k' k).
    + rewrite IH. destruct (String.eqb_spec k0 k) as [->|Hne']; [|reflexivity].
      destruct (String.eqb_spec k' k) as [->|]; [congruence | reflexivity].
Qed.

Lemma keys_dict_set (k v : string) (d : dict) :
  keys (dict_set k v d)
  = match dict_get k d with
    | Some _ => keys d
    | None => (keys d ++ [k])%list
    end.
Proof.
  induction d as [|[k0 v0] d IH]; cbn [dict_set dict_get keys map fst].
  - reflexivity.
  - destruct (String.eqb k0 k); cbn [keys map fst]; [reflexivity|].
    unfold keys in IH. rewrite IH. now destruct (dict_get k d).
Qed.

Lemma dict_get_None (k : string) (d : dict) :
  dict_get k d = None <-> ~ In k (keys d).
Proof.
  induction d as [|[k0 v0] d IH]; cbn [dict_get keys map fst In].
  - tauto.
  - destruct (String.eqb_spec k0 k) as [->|Hne].
    + split; [discriminate | tauto].
    + unfold keys in IH. tauto.
Qed.

Lemma dict_set_NoDup (k v : string) (d : dict) :
  List.NoDup (keys d) -> List.NoDup (keys (dict_set k v d)).
Proof.
  intros Hd. rewrite keys_dict_set.
  destruct (dict_get k d) eqn:E; [exact Hd|].
  apply dict_get_None in E.
  apply List.NoDup_app; [exact Hd | |].
  - constructor; [intros [] | constructor].
  - intros x Hx [<-|[]]. contradiction.
Qed.

Lemma dict_set_all_app (r1 r2 d : dict) :
  dict_set_all (r1 ++ r2) d = dict_set_all r2 (dict_set_all r1 d).
Proof. unfold dict_set_all. now rewrite fold_left_app. Qed.

Lemma dict_set_all_NoDup (recs d : dict) :
  List.NoDup (keys d) -> List.NoDup (keys (dict_set_all recs d)).
Proof.
  revert d. induction recs as [|[k v] recs IH]; intros d Hd; [exact Hd|].
  apply IH. now apply dict_set_NoDup.
Qed.

(** The value read back is the one written last. *)
Lemma dict_get_set_all (k : string) (recs d : dict) :
  dict_get k (dict_set_all recs d)
  = match dict_get k (rev recs) with
    | Some v => Some v
    | None => dict_get k d
    end.
Proof.
  revert d. induction recs as [|[k0 v0] recs IH]; intros d; [reflexivity|].
  change (dict_set_all ((k0, v0) :: recs) d)
    with (dict_set_all recs (dict_set k0 v0 d)).
  rewrite IH, dict_get_set. cbn [rev].
  assert (Happ : forall a b : dict,
             dict_get k (a ++ b)
             = match dict_get k a with
               | Some v => Some v
               | None => dict_get k b
               end).
  { induction a as [|[ka va] a IHa]; intros b; cbn [app dict_get];
      [reflexivity|]. destruct (String.eqb ka k); [reflexivity | apply IHa]. }
  rewrite Happ. cbn [dict_get].
  now destruct (dict_get k (rev recs)), (String.eqb k0 k).
Qed.

(** When no key is written twice the table is the list of assignments. *)
Lemma dict_set_all_fresh (recs d : dict) :
  List.NoDup (keys d ++ keys recs) -> dict_set_all recs d = (d ++ recs)%list.
Proof.
  revert d. induction recs as [|[k v] recs IH]; intros d Hnd.
  - now rewrite List.app_nil_r.
  - change (dict_set_all ((k, v) :: recs) d)
      with (dict_set_all recs (dict_set k v d)).
    assert (Hk : dict_set k v d = (d ++ [(k, v)])%list).
    { assert (Hin : ~ In k (keys d)).
      { intros Hin. cbn [keys map fst] in Hnd.
        apply List.NoDup_remove_2 in Hnd. apply Hnd, in_or_app. now left. }
      clear -Hin. induction d as [|[k0 v0] d IHd]; [reflexivity|].
      cbn [dict_set app].
      destruct (String.eqb_spec k0 k) as [->|Hne].
      - exfalso. apply Hin. now left.
      - rewrite IHd; [reflexivity|]. intros H. apply Hin. now right. }
    rewrite Hk, IH.
    + now rewrite <- List.app_assoc.
    + unfold keys in *. rewrite map_app, <- List.app_assoc. exact Hnd.
Qed.

(** ** What the loops write *)

Lemma regex_type_table (pii_type placeholder : string)
    (matches : list string) (st : state) :
  lookup_table (fold_left (regex_step pii_type placeholder) matches st)
  = dict_set_all (regex_type_records pii_type placeholder matches st)
                 (lookup_table st).
Proof.
  revert st. induction matches as [|o ms IH]; intros st; [reflexivity|].
  cbn [fold_left regex_type_records]. now rewrite IH.
Qed.

Lemma entity_pass_table (l : list ent_or_token) (st : state) :
  lookup_table (entity_pass l st)
  = dict_set_all (entity_records l st) (lookup_table st).
Proof.
  revert st. induction l as [|x l IH]; intros st; [reflexivity|].
  cbn [entity_pass fold_left entity_records].
  fold (entity_pass l (entity_step st x)).
  rewrite IH, dict_set_all_app. f_equal.
  unfold entity_record, entity_step.
  destruct (allowed (label_of x)); [|reflexivity].
  now destruct (occurs (text_of x) (anonymized_text st)).
Qed.

Section RecordsFacts.

Context {pattern : Type}.
Variable finditer : pattern -> string -> list string.
Variable nlp : string -> Doc.

Lemma regex_pass_table (text : string)
    (pii_config : list (string * (pattern * string))) (st : state) :
  lookup_table (regex_pass finditer text pii_config st)
  = dict_set_all (regex_records finditer text pii_config st)
                 (lookup_table st).
Proof.
  revert st.
  induction pii_config as [|[ty [pat ph]] cfg IH]; intros st; [reflexivity|].
  cbn [regex_pass fold_left regex_records fst snd].
  fold (regex_pass finditer text cfg (regex_type finditer text st
                                        (ty, (pat, ph)))).
  rewrite IH, dict_set_all_app. f_equal. apply regex_type_table.
Qed.

Lemma anonymize_table (text : string)
    (pii_config : list (string * (pattern * string))) :
  snd (anonymize_text_including_proper_nouns_and_addresses
         finditer nlp text pii_config)
  = dict_set_all (records finditer nlp text pii_config) [].
Proof.
  unfold anonymize_text_including_proper_nouns_and_addresses,
    anonymize_state, records. cbn [snd].
  now rewrite entity_pass_table, regex_pass_table, dict_set_all_app.
Qed.

End RecordsFacts.

(** C6, as stated, fails: two configured types with one placeholder prefix
    write two originals under one key, and the table keeps the later one. *)
Lemma first_recorded_does_not_win :
  ~ first_recorded_wins re_finditer no_entities "foo bar" colliding_config.
Proof.
  intros [Hsame Hfirst].
  specialize (Hfirst "[X]1"). vm_compute in Hfirst. discriminate Hfirst.
Qed.

(** C6, amended.  The lookup table returned by the anonymiser never holds a
    key twice; it is the result of making the recorded assignments in order,
    so for every key it holds the original recorded last under that key. *)
Theorem lookup_table_last_write_wins {pattern : Type}
    (finditer : pattern -> string -> list string) (nlp : string -> Doc)
    (text : string) (pii_config : list (string * (pattern * string))) :
  let out :=
    anonymize_text_including_proper_nouns_and_addresses
      finditer nlp text pii_config in
  let recs := records finditer nlp text pii_config in
  List.NoDup (keys (snd out)) /\
  snd out = dict_set_all recs [] /\
  (forall k, dict_get k (snd out) = dict_get k (rev recs)) /\
  (forall k v1 v2 d,
      dict_get k (dict_set k v2 (dict_set k v1 d)) = Some v2 /\
      keys (dict_set k v2 (dict_set k v1 d)) = keys (dict_set k v1 d)).
Proof.
  cbv zeta. rewrite anonymize_table. repeat split.
  - apply dict_set_all_NoDup. constructor.
  - intros k. rewrite dict_get_set_all.
    now destruct (dict_get k (rev (records finditer nlp text pii_config))).
  - rewrite dict_get_set. now rewrite String.eqb_refl.
  - rewrite keys_dict_set, dict_get_set. now rewrite String.eqb_refl.
Qed.

(** ** The regex pass *)

Lemma regex_type_spec (pii_type placeholder : string) (matches : list string)
    (st : state) :
  let st' := fold_left (regex_step pii_type placeholder) matches st in
  (anonymized_text st', lookup_table st')
  = spec_replace_matches placeholder (counters st !!! pii_type) matches
      (anonymized_text st) (lookup_table st) /\
  counters st' !!! pii_type = counters st !!! pii_type + List.length matches /\
  (forall ty, ty <> pii_type -> counters st' !!! ty = counters st !!! ty).
Proof.
  revert st. induction matches as [|o ms IH]; intros st; cbv zeta.
  - cbn. repeat split. lia.
  - cbn [fold_left spec_replace_matches List.length].
    destruct (IH (regex_step pii_type placeholder st o)) as (H1 & H2 & H3).
    cbv zeta in H1, H2, H3. rewrite H1, H2.
    cbn [regex_step counters anonymized_text lookup_table].
    rewrite lookup_total_insert_eq. repeat split; [lia|].
    intros ty Hty. rewrite H3 by exact Hty.
    cbn [regex_step counters]. now rewrite lookup_total_insert_ne.
Qed.

Section RegexPass.

Context {pattern : Type}.
Variable finditer : pattern -> string -> list string.

Lemma regex_pass_app (text : string)
    (cfg1 cfg2 : list (string * (pattern * string))) (st : state) :
  regex_pass finditer text (cfg1 ++ cfg2) st
  = regex_pass finditer text cfg2 (regex_pass finditer text cfg1 st).
Proof. unfold regex_pass. now rewrite fold_left_app. Qed.

Lemma regex_pass_spec (text : string)
    (pii_config : list (string * (pattern * string))) (st : state) :
  List.NoDup (map fst pii_config) ->
  (forall entry, In entry pii_config -> counters st !!! fst entry = 0) ->
  let st' := regex_pass finditer text pii_config st in
  (anonymized_text st', lookup_table st')
  = spec_regex_pass finditer text pii_config
      (anonymized_text st) (lookup_table st) /\
  (forall entry, In entry pii_config ->
     counters st' !!! fst entry
     = List.length (finditer (fst (snd entry)) text)) /\
  (forall ty, ~ In ty (map fst pii_config) ->
     counters st' !!! ty = counters st !!! ty).
Proof.
  revert st.
  induction pii_config as [|[ty [pat ph]] cfg IH]; intros st Hnd Hzero;
    cbv zeta.
  - cbn. repeat split. intros entry [].
  - apply List.NoDup_cons_iff in Hnd as [Hty Hnd]. cbn [map fst] in Hty.
    cbn [regex_pass fold_left].
    fold (regex_pass finditer text cfg
            (regex_type finditer text st (ty, (pat, ph)))).
    cbn [regex_type spec_regex_pass fst snd].
    destruct (regex_type_spec ty ph (finditer pat text) st)
      as (H1 & H2 & H3).
    cbv zeta in H1, H2, H3.
    set (st1 := fold_left (regex_step ty ph) (finditer pat text) st) in *.
    assert (Hne : forall entry, In entry cfg -> fst entry <> ty).
    { intros entry Hin E. apply Hty. rewrite <- E. now apply in_map. }
    destruct (IH st1 Hnd) as (G1 & G2 & G3).
    { intros entry Hin. rewrite H3 by now apply Hne.
      apply Hzero. now right. }
    cbv zeta in G1, G2, G3.
    pose proof (Hzero (ty, (pat, ph)) (or_introl eq_refl)) as Hz.
    cbn [fst] in Hz. rewrite Hz in H1, H2.
    split; [|split].
    + rewrite G1, <- H1. reflexivity.
    + intros entry [<-|Hin]; [|now apply G2].
      cbn [fst snd]. rewrite G3 by exact Hty. exact H2.
    + intros ty' Hty'. cbn [map fst In] in Hty'.
      rewrite G3 by tauto. apply H3. intros ->. tauto.
Qed.

Lemma regex_pass_ext (finditer' : pattern -> string -> list string)
    (text : string) (pii_config : list (string * (pattern * string)))
    (st : state) :
  (forall entry, In entry pii_config ->
     finditer' (fst (snd entry)) text = finditer (fst (snd entry)) text) ->
  regex_pass finditer' text pii_config st
  = regex_pass finditer text pii_config st.
Proof.
  revert st.
  induction pii_config as [|[ty [pat ph]] cfg IH]; intros st Hagree;
    [reflexivity|].
  cbn [regex_pass fold_left regex_type].
  pose proof (Hagree (ty, (pat, ph)) (or_introl eq_refl)) as Ha.
  cbn [fst snd] in Ha. rewrite Ha.
  apply IH. intros entry Hin. apply Hagree. now right.
Qed.

End RegexPass.

(** C2.  The regex pass of the code is the regex pass of the
    specification: the entries of the configuration are taken in insertion
    order; the matches of a type are those of its pattern in the original
    text, left to right, whatever the working text has become (a matcher
    that agrees on the original text gives the same pass); the i-th match
    of a type gets the placeholder prefix followed by i, replaces the first
    remaining occurrence of the match in the working text and is recorded
    in the lookup table. *)
Theorem regex_pass_semantics {pattern : Type}
    (finditer : pattern -> string -> list string) (text : string)
    (pii_config : list (string * (pattern * string))) :
  List.NoDup (map fst pii_config) ->
  let st := regex_pass finditer text pii_config (initial text) in
  (anonymized_text st, lookup_table st)
  = spec_regex_pass finditer text pii_config text [] /\
  (forall entry, In entry pii_config ->
     counters st !!! fst entry
     = List.length (finditer (fst (snd entry)) text)) /\
  (forall cfg1 cfg2 st0,
     regex_pass finditer text (cfg1 ++ cfg2) st0
     = regex_pass finditer text cfg2 (regex_pass finditer text cfg1 st0)) /\
  (forall finditer' : pattern -> string -> list string,
     (forall entry, In entry pii_config ->
        finditer' (fst (snd entry)) text = finditer (fst (snd entry)) text) ->
     regex_pass finditer' text pii_config (initial text) = st) /\
  (forall pii_type placeholder st0 original,
     regex_step pii_type placeholder st0 original
     = let n := counters st0 !!! pii_type + 1 in
       {| anonymized_text :=
            replace_first original (placeholder +:+ str n)
                          (anonymized_text st0);
          lookup_table :=
            dict_set (placeholder +:+ str n) original (lookup_table st0);
          counters := <[pii_type := n]> (counters st0) |}).
Proof.
  intros Hnd. cbv zeta.
  destruct (regex_pass_spec finditer text pii_config (initial text) Hnd)
    as (H1 & H2 & _).
  { intros entry _. cbn [initial counters]. now rewrite lookup_total_empty. }
  split; [exact H1|]. split; [exact H2|].
  split; [intros; apply regex_pass_app|].
  split; [intros; now apply regex_pass_ext | reflexivity].
Qed.

Lemma pii_config_types_distinct : List.NoDup (map fst pii_config).
Proof.
  repeat (constructor; [cbn; intuition discriminate|]). constructor.
Qed.

Lemma regex_pass_semantics_witness :
  (anonymized_text
     (regex_pass re_finditer "Call 123-456-7890 or 123 456 7890"
                 pii_config (initial "Call 123-456-7890 or 123 456 7890")),
   lookup_table
     (regex_pass re_finditer "Call 123-456-7890 or 123 456 7890"
                 pii_config (initial "Call 123-456-7890 or 123 456 7890")))
  = spec_regex_pass re_finditer "Call 123-456-7890 or 123 456 7890"
      pii_config "Call 123-456-7890 or 123 456 7890" [].
Proof.
  exact (proj1 (regex_pass_semantics re_finditer
                  "Call 123-456-7890 or 123 456 7890" pii_config
                  pii_config_types_distinct)).
Defined.

(** ** Regex precedence *)

(** C7, as stated, fails for [pii_config]: in
    ["Call 123-456-7890 or email a@b.com"] the website pattern matches the
    domain [b.com] of the email in the original text, so the website counter
    goes to 1 although the only website match is a fragment of the email. *)
Lemma url_fires_on_email_fragment :
  ~ url_does_not_fire_on_email_fragment "Call 123-456-7890 or email a@b.com".
Proof.
  intros H. cbv zeta in H.
  destruct (H "a@b.com" "b.com") as [_ Hcount].
  - vm_compute. auto.
  - vm_compute. auto.
  - reflexivity.
  - vm_compute in Hcount. discriminate Hcount.
Qed.

(** ** Characters, brackets and prefixes *)

Lemma has_char_app (c : ascii) (a b : string) :
  has_char c (a +:+ b) = has_char c a || has_char c b.
Proof.
  induction a as [|d a IH]; cbn [String.append has_char]; [reflexivity|].
  now rewrite IH, orb_assoc.
Qed.

Lemma occurs_char (c : ascii) (s : string) :
  occurs (String c "") s = has_char c s.
Proof.
  induction s as [|d s IH]; cbn [occurs strip_prefix has_char];
    [reflexivity|].
  destruct (Ascii.eqb c d); [reflexivity | exact IH].
Qed.

Lemma bracketed_inv (k : string) :
  bracketed k = true ->
  exists body, k = String "[" body /\ has_char "[" body = false.
Proof.
  destruct k as [|c body]; [discriminate|]. cbn [bracketed].
  intros [Hc Hb]%andb_prop. apply Ascii.eqb_eq in Hc as ->.
  apply negb_true_iff in Hb. now exists body.
Qed.

Lemma strip_prefix_other_head (k : string) (c : ascii) (s : string) :
  bracketed k = true -> Ascii.eqb "[" c = false ->
  strip_prefix k (String c s) = None.
Proof.
  intros (body & -> & _)%bracketed_inv Hc.
  cbn [strip_prefix]. now rewrite Hc.
Qed.

(** A bracketed key is not found in a stretch without ["["], and the scan
    goes through such a stretch unchanged. *)
Lemma replace_through (k v s r : string) :
  bracketed k = true -> has_char "[" s = false ->
  replace k v (s +:+ r) = s +:+ replace k v r.
Proof.
  intros Hk. induction s as [|c s IH]; intros Hs; [reflexivity|].
  cbn [has_char] in Hs. apply orb_false_elim in Hs as [Hc Hs].
  cbn [String.append].
  rewrite replace_later by now apply strip_prefix_other_head.
  now rewrite IH.
Qed.

Lemma occurs_bracketed (k s : string) :
  bracketed k = true -> has_char "[" s = false -> occurs k s = false.
Proof.
  intros Hk. induction s as [|c s IH]; intros Hs.
  - destruct k; [discriminate | reflexivity].
  - cbn [has_char] in Hs. apply orb_false_elim in Hs as [Hc Hs].
    cbn [occurs]. rewrite strip_prefix_other_head by assumption.
    now apply IH.
Qed.

(** Two strings that start one text are prefixes one of the other. *)
Lemma prefix_comparable (a b x y : string) :
  a +:+ x = b +:+ y -> is_prefix a b = true \/ is_prefix b a = true.
Proof.
  revert b. induction a as [|c a IH]; intros b E.
  - left. reflexivity.
  - destruct b as [|d b]; [right; reflexivity|].
    cbn [String.append] in E. injection E as -> E.
    unfold is_prefix. cbn [strip_prefix]. rewrite Ascii.eqb_refl.
    exact (IH b E).
Qed.

Lemma is_prefix_refl (a : string) : is_prefix a a = true.
Proof.
  unfold is_prefix. rewrite <- (str_app_nil_r a) at 2.
  now rewrite strip_prefix_app.
Qed.

Lemma strip_prefix_incomparable (k k' rest : string) :
  is_prefix k k' = false -> is_prefix k' k = false ->
  strip_prefix k (k' +:+ rest) = None.
Proof.
  intros H1 H2. destruct (strip_prefix k (k' +:+ rest)) as [x|] eqn:E;
    [|reflexivity].
  apply strip_prefix_Some in E. symmetry in E.
  destruct (prefix_comparable _ _ _ _ E); congruence.
Qed.

(** A stretch without [c], up to the first [c], is determined. *)
Lemma until_char_inj (c : ascii) (a b x y : string) :
  has_char c a = false -> has_char c b = false ->
  a +:+ String c x = b +:+ String c y -> a = b.
Proof.
  revert b. induction a as [|d a IH]; intros b Ha Hb E.
  - destruct b as [|e b]; [reflexivity|].
    cbn [String.append] in E. injection E as <- _.
    cbn [has_char] in Hb. now rewrite Ascii.eqb_refl in Hb.
  - destruct b as [|e b]; cbn [String.append] in E.
    + injection E as -> _. cbn [has_char] in Ha.
      now rewrite Ascii.eqb_refl in Ha.
    + injection E as -> E. cbn [has_char] in Ha, Hb.
      apply orb_false_elim in Ha as [_ Ha].
      apply orb_false_elim in Hb as [_ Hb].
      f_equal. exact (IH b Ha Hb E).
Qed.

(** A stretch without ["["] that starts a text ends before the text's
    first ["["]. *)
Lemma body_before_bracket (body x b r : string) :
  has_char "[" body = false ->
  x +:+ String "[" b = body +:+ r -> exists x', x = body +:+ x'.
Proof.
  revert x. induction body as [|d body IH]; intros x Hb E.
  - now exists x.
  - cbn [has_char] in Hb. apply orb_false_elim in Hb as [Hd Hb].
    destruct x as [|e x]; cbn [String.append] in E.
    + injection E as <- _. now rewrite Ascii.eqb_refl in Hd.
    + injection E as -> E. destruct (IH x Hb E) as [x' ->].
      now exists x'.
Qed.

(** The scan for a bracketed key starts afresh at every ["["]. *)
Lemma replace_at_bracket (k v pre rest : string) :
  bracketed k = true ->
  replace k v (pre +:+ String "[" rest)
  = replace k v pre +:+ replace k v (String "[" rest).
Proof.
  intros Hk. destruct (bracketed_inv k Hk) as (body & Ek & Hbody).
  assert (Hne : k <> "") by (rewrite Ek; discriminate).
  remember (String.length pre) as n eqn:Hn.
  revert pre Hn. induction n as [n IH] using lt_wf_ind. intros pre Hn.
  destruct pre as [|c pre].
  - now rewrite replace_nil.
  - destruct (strip_prefix k (String c pre +:+ String "[" rest))
      as [r|] eqn:E.
    + apply strip_prefix_Some in E.
      assert (Hpre : exists x', String c pre = k +:+ x').
      { rewrite Ek in E |- *. cbn [String.append] in E.
        injection E as -> E.
        destruct (body_before_bracket _ _ _ _ Hbody E) as [x' ->].
        now exists x'. }
      destruct Hpre as [x' Hpre]. rewrite Hpre.
      rewrite str_app_assoc, !replace_here by exact Hne.
      rewrite (IH (String.length x'));
        [now rewrite str_app_assoc | | reflexivity].
      rewrite Hn, Hpre, str_app_length, Ek. cbn [String.length]. lia.
    + assert (E' : strip_prefix k (String c pre) = None).
      { apply strip_prefix_None. intros r Hr.
        apply (proj1 (strip_prefix_None _ _) E (r +:+ String "[" rest)).
        now rewrite Hr, str_app_assoc. }
      cbn [String.append] in E |- *.
      rewrite !replace_later by assumption.
      cbn [String.append]. f_equal.
      apply (IH (String.length pre)); [|reflexivity].
      rewrite Hn. cbn [String.length]. lia.
Qed.

(** ** Decimal numerals and entity placeholders *)

Lemma numeral_no_bracket (c : ascii) (d : uint) :
  c = "["%char \/ c = "]"%char ->
  has_char c (NilEmpty.string_of_uint d) = false.
Proof.
  intros Hc. induction d; cbn [NilEmpty.string_of_uint has_char];
    try reflexivity; rewrite IHd; destruct Hc as [-> | ->]; reflexivity.
Qed.

Lemma str_no_bracket (c : ascii) (n : nat) :
  c = "["%char \/ c = "]"%char -> has_char c (str n) = false.
Proof.
  intros Hc. unfold str, NilZero.string_of_uint.
  destruct (Nat.to_uint n) eqn:E; rewrite <- ?E;
    try apply numeral_no_bracket; try exact Hc.
  destruct Hc as [-> | ->]; reflexivity.
Qed.

Lemma str_inj (n m : nat) : str n = str m -> n = m.
Proof.
  assert (Hparse : forall n,
             option_map Nat.of_uint (NilZero.uint_of_string (str n))
             = Some n).
  { intros k. unfold str.
    destruct (uint_eq_dec (Nat.to_uint k) Nil) as [E|E].
    - pose proof (DecimalNat.Unsigned.of_to k) as Hk. rewrite E in Hk |- *.
      cbn in Hk |- *. now subst k.
    - rewrite NilZero.usu by exact E. cbn [option_map].
      now rewrite DecimalNat.Unsigned.of_to. }
  intros E. pose proof (Hparse n) as Hn. rewrite E, Hparse in Hn.
  now injection Hn.
Qed.

Lemma allowed_inv (l : string) :
  allowed l = true ->
  l = "ORG" \/ l = "PERSON" \/ l = "GPE" \/ l = "LOC" \/ l = "FAC"
  \/ l = "PROPN".
Proof.
  unfold allowed. intros (x & Hx & E)%existsb_exists.
  apply String.eqb_eq in E. subst x. cbn in Hx.
  repeat (destruct Hx as [<-|Hx]; [tauto|]). destruct Hx.
Qed.

Lemma allowed_no_bracket (c : ascii) (l : string) :
  c = "["%char \/ c = "]"%char -> allowed l = true -> has_char c l = false.
Proof.
  intros Hc Hl. apply allowed_inv in Hl.
  destruct Hc as [-> | ->];
    destruct Hl as [->|[->|[->|[->|[->| ->]]]]]; reflexivity.
Qed.

Lemma entity_body_inj (l1 l2 : string) (n m : nat) :
  allowed l1 = true -> allowed l2 = true ->
  l1 +:+ str n = l2 +:+ str m -> l1 = l2 /\ n = m.
Proof.
  intros H1 H2 E. apply allowed_inv in H1, H2.
  destruct H1 as [->|[->|[->|[->|[->| ->]]]]];
    destruct H2 as [->|[->|[->|[->|[->| ->]]]]];
    cbn [String.append] in E; try discriminate E;
    (split; [reflexivity|]); apply str_inj; congruence.
Qed.

Lemma entity_placeholder_shape (l : string) (n : nat) :
  entity_placeholder l n = String "[" ((l +:+ str n) +:+ "]").
Proof.
  unfold entity_placeholder. cbn [String.append].
  now rewrite str_app_assoc.
Qed.

Lemma entity_body_no_bracket (c : ascii) (l : string) (n : nat) :
  c = "["%char \/ c = "]"%char -> allowed l = true ->
  has_char c (l +:+ str n) = false.
Proof.
  intros Hc Hl.
  now rewrite has_char_app, allowed_no_bracket, str_no_bracket.
Qed.

Lemma entity_placeholder_bracketed (l : string) (n : nat) :
  allowed l = true -> bracketed (entity_placeholder l n) = true.
Proof.
  intros Hl. rewrite entity_placeholder_shape. cbn [bracketed].
  rewrite has_char_app, entity_body_no_bracket by auto. reflexivity.
Qed.

(** One entity placeholder does not start another one. *)
Lemma entity_placeholder_no_prefix (l1 l2 : string) (n m : nat)
    (rest : string) :
  allowed l1 = true -> allowed l2 = true -> (l1, n) <> (l2, m) ->
  strip_prefix (entity_placeholder l1 n) (entity_placeholder l2 m +:+ rest)
  = None.
Proof.
  intros H1 H2 Hne. apply strip_prefix_None. intros r E.
  rewrite !entity_placeholder_shape in E. cbn [String.append] in E.
  injection E as E.
  rewrite (str_app_assoc (l1 +:+ str n)), (str_app_assoc (l2 +:+ str m)) in E.
  cbn [String.append] in E. symmetry in E.
  apply until_char_inj in E; try now apply entity_body_no_bracket; auto.
  apply entity_body_inj in E as [-> ->]; auto.
Qed.

(** ** Pieces *)

Lemma cut_Some (o s a b : string) :
  cut o s = Some (a, b) -> s = a +:+ o +:+ b.
Proof.
  revert a b. induction s as [|c s IH]; intros a b; cbn [cut].
  - destruct (strip_prefix o "") as [r|] eqn:E; [|discriminate].
    intros [= <- <-]. exact (strip_prefix_Some _ _ _ E).
  - destruct (strip_prefix o (String c s)) as [r|] eqn:E.
    + intros [= <- <-]. exact (strip_prefix_Some _ _ _ E).
    + destruct (cut o s) as [[a' b']|]; [|discriminate].
      intros [= <- <-]. cbn [String.append]. f_equal. now apply IH.
Qed.

Lemma place_orig (o k : string) (ps : list piece) :
  orig_of (place o k ps) = orig_of ps.
Proof.
  induction ps as [|[s|k' o'] ps IH]; cbn [place]; [reflexivity| |].
  - destruct (cut o s) as [[a b]|] eqn:E.
    + apply cut_Some in E. subst s. cbn [orig_of meant].
      now rewrite !str_app_assoc.
    + cbn [orig_of]. now rewrite IH.
  - cbn [orig_of]. now rewrite IH.
Qed.

Lemma place_lits (o k : string) (ps : list piece) :
  lits_plain ps -> lits_plain (place o k ps).
Proof.
  unfold lits_plain.
  induction ps as [|[s|k' o'] ps IH]; intros Hps; cbn [place];
    [exact Hps| |].
  - destruct (cut o s) as [[a b]|] eqn:E.
    + apply cut_Some in E.
      pose proof (Hps s (or_introl eq_refl)) as Hs. rewrite E in Hs.
      rewrite !has_char_app in Hs.
      apply orb_false_elim in Hs as [Ha Hs].
      apply orb_false_elim in Hs as [_ Hb].
      intros t [[= <-]|[[=]|[[= <-]|Ht]]]; auto.
      apply Hps. now right.
    + intros t [[= <-]|Ht]; [apply Hps; now left|].
      apply IH; [|exact Ht]. intros t' Ht'. apply Hps. now right.
  - intros t [[=]|Ht].
    apply IH; [|exact Ht]. intros t' Ht'. apply Hps. now right.
Qed.

Lemma place_phs (o k : string) (ps : list piece) (k' o' : string) :
  lits_plain ps ->
  In (Ph k' o') (place o k ps) ->
  In (Ph k' o') ps \/ (k' = k /\ o' = o /\ has_char "[" o = false).
Proof.
  unfold lits_plain.
  induction ps as [|[s|k0 o0] ps IH]; intros Hps; cbn [place]; [tauto| |].
  - destruct (cut o s) as [[a b]|] eqn:E.
    + apply cut_Some in E.
      pose proof (Hps s (or_introl eq_refl)) as Hs. rewrite E in Hs.
      rewrite !has_char_app in Hs.
      apply orb_false_elim in Hs as [_ Hs].
      apply orb_false_elim in Hs as [Ho _].
      intros [[=]|[[= <- <-]|[[=]|Hin]]]; [now right|].
      left. now right.
    + intros [[=]|Hin].
      destruct IH as [H|H]; [intros t Ht; apply Hps; now right
                            | exact Hin | left; now right | now right].
  - intros [[= <- <-]|Hin]; [left; now left|].
    destruct IH as [H|H]; [intros t Ht; apply Hps; now right
                          | exact Hin | left; now right | now right].
Qed.

Lemma clean_run (recs : dict) (ps : list piece) :
  clean recs ps = true ->
  anon_of (place_all recs ps) = replace_all_recorded recs (anon_of ps).
Proof.
  revert ps. induction recs as [|[k o] recs IH]; intros ps Hc; [reflexivity|].
  cbn [clean] in Hc. apply andb_prop in Hc as [Hk Hc].
  apply String.eqb_eq in Hk.
  cbn [place_all replace_all_recorded fold_left fst snd].
  fold (place_all recs (place o k ps)).
  fold (replace_all_recorded recs (replace_first o k (anon_of ps))).
  now rewrite IH, Hk.
Qed.

Lemma place_all_invariant (recs : dict) (ps : list piece) :
  lits_plain ps ->
  orig_of (place_all recs ps) = orig_of ps /\
  lits_plain (place_all recs ps) /\
  (forall k o, In (Ph k o) (place_all recs ps) ->
     In (Ph k o) ps \/ (In (k, o) recs /\ has_char "[" o = false)).
Proof.
  revert ps. induction recs as [|[k o] recs IH]; intros ps Hps.
  - cbn. repeat split; [exact Hps | tauto].
  - cbn [place_all fold_left fst snd]. fold (place_all recs (place o k ps)).
    destruct (IH (place o k ps) (place_lits o k ps Hps)) as (H1 & H2 & H3).
    split; [now rewrite H1, place_orig|]. split; [exact H2|].
    intros k' o' Hin. destruct (H3 k' o' Hin) as [H|[H Ho]].
    + destruct (place_phs o k ps k' o' Hps H) as [H'|(-> & -> & Ho)];
        [now left | right; split; [now left | exact Ho]].
    + right. split; [now right | exact Ho].
Qed.

Lemma anon_no_placeholder (ps : list piece) :
  (forall k o, ~ In (Ph k o) ps) -> anon_of ps = orig_of ps.
Proof.
  induction ps as [|[s|k o] ps IH]; intros H; [reflexivity| |].
  - cbn [anon_of orig_of shown meant]. rewrite IH; [reflexivity|].
    intros k o Hin. apply (H k o). now right.
  - exfalso. apply (H k o). now left.
Qed.

Lemma restore_orig (k : string) (ps : list piece) :
  orig_of (restore k ps) = orig_of ps.
Proof.
  induction ps as [|[s|k' o'] ps IH]; cbn [restore orig_of];
    [reflexivity| |]; rewrite IH; [reflexivity|].
  now destruct (String.eqb k' k).
Qed.

Lemma restore_lits (k : string) (ps : list piece) (s : string) :
  In (Lit s) (restore k ps) ->
  In (Lit s) ps \/ In (Ph k s) ps.
Proof.
  induction ps as [|[t|k' o'] ps IH]; cbn [restore]; [tauto| |].
  - intros [[= <-]|Hin]; [left; now left|].
    destruct (IH Hin); [left | right]; now right.
  - destruct (String.eqb_spec k' k) as [->|Hne].
    + intros [[= <-]|Hin]; [right; now left|].
      destruct (IH Hin); [left | right]; now right.
    + intros [[=]|Hin]. destruct (IH Hin); [left | right]; now right.
Qed.

Lemma restore_phs (k : string) (ps : list piece) (k' o' : string) :
  In (Ph k' o') (restore k ps) -> In (Ph k' o') ps /\ k' <> k.
Proof.
  induction ps as [|[t|k0 o0] ps IH]; cbn [restore]; [tauto| |].
  - intros [[=]|Hin]. destruct (IH Hin). split; [now right | assumption].
  - destruct (String.eqb_spec k0 k) as [->|Hne].
    + intros [[=]|Hin]. destruct (IH Hin). split; [now right | assumption].
    + intros [[= <- <-]|Hin]; [split; [now left | exact Hne]|].
      destruct (IH Hin). split; [now right | assumption].
Qed.

(** Replacing a bracketed key in a text made of plain stretches and of
    placeholders that the key neither starts nor is started by. *)
Lemma replace_pieces (k o : string) (ps : list piece) :
  bracketed k = true ->
  lits_plain ps ->
  (forall k' o', In (Ph k' o') ps ->
     bracketed k' = true /\
     (k' = k -> o' = o) /\
     (k' <> k -> is_prefix k k' = false /\ is_prefix k' k = false)) ->
  replace k o (anon_of ps) = anon_of (restore k ps).
Proof.
  intros Hk. assert (Hne : k <> "") by (intros ->; discriminate).
  unfold lits_plain.
  induction ps as [|[s|k' o'] ps IH]; intros Hl Hp.
  - now apply replace_nil.
  - cbn [anon_of restore shown].
    rewrite replace_through by (auto; apply Hl; now left).
    rewrite IH; [reflexivity| |].
    + intros t Ht. apply Hl. now right.
    + intros k' o' Hin. apply Hp. now right.
  - cbn [anon_of restore shown].
    destruct (Hp k' o' (or_introl eq_refl)) as (Hk' & Hsame & Hdiff).
    assert (IH' : replace k o (anon_of ps) = anon_of (restore k ps)).
    { apply IH; [intros t Ht; apply Hl; now right|].
      intros k1 o1 Hin. apply Hp. now right. }
    destruct (String.eqb_spec k' k) as [->|Hkk].
    + rewrite replace_here by exact Hne. cbn [anon_of shown].
      now rewrite IH', (Hsame eq_refl).
    + destruct (Hdiff Hkk) as [Hp1 Hp2].
      destruct (bracketed_inv k' Hk') as (body & -> & Hbody).
      cbn [anon_of shown String.append].
      rewrite replace_later
        by (apply (strip_prefix_incomparable k (String "[" body));
            assumption).
      f_equal. rewrite replace_through by assumption. now rewrite IH'.
Qed.

Lemma prefix_free_cons (k : string) (ks : list string) :
  prefix_free (k :: ks) = true ->
  ~ In k ks /\
  (forall k', In k' ks -> is_prefix k k' = false /\ is_prefix k' k = false) /\
  prefix_free ks = true.
Proof.
  cbn [prefix_free]. intros [Hall Hks]%andb_prop.
  rewrite forallb_forall in Hall.
  assert (Hinc : forall k', In k' ks ->
                   is_prefix k k' = false /\ is_prefix k' k = false).
  { intros k' Hin. apply Hall in Hin. apply andb_prop in Hin as [H1 H2].
    now apply negb_true_iff in H1, H2. }
  split; [|now split].
  intros Hin. destruct (Hinc k Hin) as [H _].
  now rewrite is_prefix_refl in H.
Qed.

Lemma prefix_free_NoDup (ks : list string) :
  prefix_free ks = true -> List.NoDup ks.
Proof.
  induction ks as [|k ks IH]; intros H; [constructor|].
  apply prefix_free_cons in H as (Hin & _ & Hks).
  constructor; [exact Hin | now apply IH].
Qed.

(** Deanonymising a text made of plain stretches and recorded
    placeholders gives the text the pieces stand for. *)
Lemma deanonymize_pieces (recs : dict) (ps : list piece) :
  forallb bracketed (keys recs) = true ->
  prefix_free (keys recs) = true ->
  lits_plain ps ->
  (forall k o, In (Ph k o) ps -> In (k, o) recs /\ has_char "[" o = false) ->
  deanonymize_text recs (anon_of ps) = orig_of ps.
Proof.
  revert ps. induction recs as [|[k o] recs IH]; intros ps Hb Hpf Hl Hp.
  - cbn [deanonymize_text fold_left]. apply anon_no_placeholder.
    intros k o Hin. now destruct (Hp k o Hin).
  - rewrite deanonymize_cons.
    cbn [keys map fst forallb] in Hb. apply andb_prop in Hb as [Hk Hb].
    cbn [keys map fst] in Hpf.
    apply prefix_free_cons in Hpf as (Hfresh & Hinc & Hpf).
    assert (Hkey : forall k' o', In (k', o') recs -> In k' (keys recs)).
    { intros k' o' Hin. apply (in_map fst) in Hin. exact Hin. }
    rewrite (replace_pieces k o ps Hk Hl).
    + rewrite <- (restore_orig k ps). apply IH; [exact Hb | exact Hpf | |].
      * intros s Hs. destruct (restore_lits k ps s Hs) as [H|H];
          [now apply Hl | now destruct (Hp k s H)].
      * intros k' o' Hin. apply restore_phs in Hin as [Hin Hne].
        destruct (Hp k' o' Hin) as [[[= -> ->]|Hrec] Ho];
          [congruence | now split].
    + intros k' o' Hin. destruct (Hp k' o' Hin) as [[[= -> ->]|Hrec] Ho].
      * split; [exact Hk|]. split; [reflexivity | congruence].
      * pose proof (Hkey _ _ Hrec) as Hin'.
        split; [|split].
        -- unfold keys in Hb. rewrite forallb_forall in Hb. now apply Hb.
        -- intros ->. contradiction.
        -- intros _. now apply Hinc.
Qed.

(** ** The anonymiser, seen through what it records *)

Lemma replace_all_recorded_app (r1 r2 : dict) (t : string) :
  replace_all_recorded (r1 ++ r2) t
  = replace_all_recorded r2 (replace_all_recorded r1 t).
Proof. unfold replace_all_recorded. now rewrite fold_left_app. Qed.

Lemma regex_type_text (pii_type placeholder : string)
    (matches : list string) (st : state) :
  anonymized_text (fold_left (regex_step pii_type placeholder) matches st)
  = replace_all_recorded
      (regex_type_records pii_type placeholder matches st)
      (anonymized_text st).
Proof.
  revert st. induction matches as [|o ms IH]; intros st; [reflexivity|].
  cbn [fold_left regex_type_records]. now rewrite IH.
Qed.

Lemma entity_pass_text (l : list ent_or_token) (st : state) :
  anonymized_text (entity_pass l st)
  = replace_all_recorded (entity_records l st) (anonymized_text st).
Proof.
  revert st. induction l as [|x l IH]; intros st; [reflexivity|].
  cbn [entity_pass fold_left entity_records].
  fold (entity_pass l (entity_step st x)).
  rewrite IH, replace_all_recorded_app. f_equal.
  unfold entity_record, entity_step.
  destruct (allowed (label_of x)); [|reflexivity].
  now destruct (occurs (text_of x) (anonymized_text st)).
Qed.

Lemma bracketed_numbered (placeholder : string) (n : nat) :
  bracketed placeholder = true -> bracketed (placeholder +:+ str n) = true.
Proof.
  intros (body & -> & Hbody)%bracketed_inv.
  cbn [String.append bracketed].
  now rewrite has_char_app, Hbody, str_no_bracket by auto.
Qed.

Lemma regex_type_records_bracketed (pii_type placeholder : string)
    (matches : list string) (st : state) :
  bracketed placeholder = true ->
  forallb bracketed
    (keys (regex_type_records pii_type placeholder matches st)) = true.
Proof.
  intros Hb. revert st.
  induction matches as [|o ms IH]; intros st; [reflexivity|].
  cbn [regex_type_records keys map fst regex_record forallb].
  rewrite bracketed_numbered by exact Hb. apply IH.
Qed.

Lemma entity_records_bracketed (l : list ent_or_token) (st : state) :
  forallb bracketed (keys (entity_records l st)) = true.
Proof.
  revert st. induction l as [|x l IH]; intros st; [reflexivity|].
  cbn [entity_records]. unfold keys in *. rewrite map_app, forallb_app, IH.
  unfold entity_record.
  destruct (allowed (label_of x)) eqn:Hal; [|reflexivity].
  destruct (occurs (text_of x) (anonymized_text st)); [|reflexivity].
  cbn [andb map fst forallb].
  now rewrite entity_placeholder_bracketed.
Qed.

Section RoundTrip.

Context {pattern : Type}.
Variable finditer : pattern -> string -> list string.
Variable nlp : string -> Doc.

Lemma regex_pass_text (text : string)
    (pii_config : list (string * (pattern * string))) (st : state) :
  anonymized_text (regex_pass finditer text pii_config st)
  = replace_all_recorded (regex_records finditer text pii_config st)
                         (anonymized_text st).
Proof.
  revert st.
  induction pii_config as [|[ty [pat ph]] cfg IH]; intros st; [reflexivity|].
  cbn [regex_pass fold_left regex_records fst snd].
  fold (regex_pass finditer text cfg (regex_type finditer text st
                                        (ty, (pat, ph)))).
  rewrite IH, replace_all_recorded_app. f_equal. apply regex_type_text.
Qed.

Lemma anonymize_text_recorded (text : string)
    (pii_config : list (string * (pattern * string))) :
  fst (anonymize_text_including_proper_nouns_and_addresses
         finditer nlp text pii_config)
  = replace_all_recorded (records finditer nlp text pii_config) text.
Proof.
  unfold anonymize_text_including_proper_nouns_and_addresses,
    anonymize_state, records. cbn [fst].
  now rewrite entity_pass_text, regex_pass_text, replace_all_recorded_app.
Qed.

Lemma regex_records_bracketed (text : string)
    (pii_config : list (string * (pattern * string))) (st : state) :
  (forall entry, In entry pii_config ->
     bracketed (snd (snd entry)) = true) ->
  forallb bracketed (keys (regex_records finditer text pii_config st)) = true.
Proof.
  revert st.
  induction pii_config as [|entry cfg IH]; intros st Hb; [reflexivity|].
  cbn [regex_records]. unfold keys in *. rewrite map_app, forallb_app.
  rewrite IH by (intros e He; apply Hb; now right).
  fold (keys (regex_type_records (fst entry) (snd (snd entry))
                (finditer (fst (snd entry)) text) st)).
  rewrite regex_type_records_bracketed by (apply Hb; now left).
  reflexivity.
Qed.

Lemma records_bracketed (text : string)
    (pii_config : list (string * (pattern * string))) :
  (forall entry, In entry pii_config ->
     bracketed (snd (snd entry)) = true) ->
  forallb bracketed (keys (records finditer nlp text pii_config)) = true.
Proof.
  intros Hb. unfold records, keys. rewrite map_app, forallb_app.
  fold (keys (regex_records finditer text pii_config (initial text))).
  rewrite regex_records_bracketed by exact Hb.
  apply entity_records_bracketed.
Qed.

End RoundTrip.

(** When the text holds no ["["], no recorded placeholder starts another
    and every recorded replacement falls in a stretch that is still
    original, the anonymiser's output is read off the pieces: the lookup
    table is the list of what was recorded, the text shows the pieces, and
    the pieces stand for the input. *)
Lemma anonymize_as_pieces {pattern : Type}
    (finditer : pattern -> string -> list string) (nlp : string -> Doc)
    (text : string) (pii_config : list (string * (pattern * string))) :
  occurs "[" text = false ->
  prefix_free (keys (records finditer nlp text pii_config)) = true ->
  clean (records finditer nlp text pii_config) [Lit text] = true ->
  let out :=
    anonymize_text_including_proper_nouns_and_addresses
      finditer nlp text pii_config in
  let recs := records finditer nlp text pii_config in
  let ps := place_all recs [Lit text] in
  snd out = recs /\
  fst out = anon_of ps /\
  orig_of ps = text /\
  lits_plain ps /\
  (forall k o, In (Ph k o) ps -> In (k, o) recs /\ has_char "[" o = false).
Proof.
  intros Htext Hpf Hclean. cbv zeta.
  rewrite anonymize_table, anonymize_text_recorded.
  set (recs := records finditer nlp text pii_config) in *.
  assert (Hplain : lits_plain [Lit text]).
  { intros s [[= <-]|[]]. now rewrite <- occurs_char. }
  destruct (place_all_invariant recs [Lit text] Hplain) as (H1 & H2 & H3).
  split; [|split; [|split; [|split]]].
  - rewrite dict_set_all_fresh; [reflexivity|].
    cbn [keys map app]. now apply prefix_free_NoDup.
  - rewrite (clean_run recs _ Hclean). cbn [anon_of shown].
    now rewrite str_app_nil_r.
  - rewrite H1. cbn [orig_of meant]. apply str_app_nil_r.
  - exact H2.
  - intros k o Hin. destruct (H3 k o Hin) as [[[=]|[]]|H]; exact H.
Qed.

(** ** The samples, evaluated *)

Example contact_anonymized :
  anonymize_text_including_proper_nouns_and_addresses
    re_finditer nlp_contact
    "Call Paul Haggerty at 123-456-7890 or a@b.com" pii_config
  = ("Call [PERSON1] at [PHONE]1 or [EMAIL]1",
     [("[PHONE]1", "123-456-7890"); ("[EMAIL]1", "a@b.com");
      ("[WEBSITE]1", "b.com"); ("[PERSON1]", "Paul Haggerty")]).
Proof. vm_compute. reflexivity. Qed.

Example paul_met_paul :
  anonymize_text_including_proper_nouns_and_addresses
    re_finditer nlp_paul "Paul Haggerty met Paul" pii_config
  = ("[PERSON1] met [PROPN2]",
     [("[PERSON1]", "Paul Haggerty"); ("[PROPN2]", "Paul")]).
Proof. vm_compute. reflexivity. Qed.

Example colliding_prefixes :
  anonymize_text_including_proper_nouns_and_addresses
    re_finditer no_entities "foo bar" colliding_config
  = ("[X]1 [X]1", [("[X]1", "bar")]).
Proof. vm_compute. reflexivity. Qed.

Example ten_persons_anonymized :
  fst (anonymize_text_including_proper_nouns_and_addresses
         re_finditer nlp_ten_persons ten_persons_text pii_config)
  = String.concat " "
      (map (entity_placeholder "PERSON") [1; 2; 3; 4; 5; 6; 7; 8; 9; 10]).
Proof. vm_compute. reflexivity. Qed.

Example ten_persons_restored :
  deanonymize_text
    (snd (anonymize_text_including_proper_nouns_and_addresses
            re_finditer nlp_ten_persons ten_persons_text pii_config))
    (fst (anonymize_text_including_proper_nouns_and_addresses
            re_finditer nlp_ten_persons ten_persons_text pii_config))
  = ten_persons_text.
Proof. vm_compute. reflexivity. Qed.

(** The placeholders of the regex pass carry the number after the closing
    bracket, and there the tenth does start with the first. *)
Example regex_placeholder_prefix :
  is_prefix ("[PHONE]" +:+ str 1) ("[PHONE]" +:+ str 10) = true
  /\ occurs (entity_placeholder "PERSON" 1) (entity_placeholder "PERSON" 10)
     = false.
Proof. split; reflexivity. Qed.

(** * Further properties of the anonymiser and the deanonymiser *)

(** ** Nothing to anonymise *)

Lemma regex_pass_no_match {pattern : Type}
    (finditer : pattern -> string -> list string) (text : string)
    (pii_config : list (string * (pattern * string))) (st : state) :
  (forall entry, In entry pii_config -> finditer (fst (snd entry)) text = []) ->
  regex_pass finditer text pii_config st = st.
Proof.
  revert st.
  induction pii_config as [|[ty [pat ph]] cfg IH]; intros st Hno;
    [reflexivity|].
  cbn [regex_pass fold_left regex_type].
  pose proof (Hno (ty, (pat, ph)) (or_introl eq_refl)) as E.
  cbn [fst snd] in E. rewrite E. cbn [fold_left].
  apply IH. intros entry Hin. apply Hno. now right.
Qed.

Lemma entity_pass_all_disallowed (l : list ent_or_token) (st : state) :
  (forall x, In x l -> allowed (label_of x) = false) ->
  entity_pass l st = st.
Proof.
  revert st. induction l as [|x l IH]; intros st Hno; [reflexivity|].
  cbn [entity_pass fold_left].
  rewrite entity_step_disallowed by (apply Hno; now left).
  apply IH. intros y Hy. apply Hno. now right.
Qed.

(** X1.  When no configured pattern matches the text and the tagger finds
    no candidate with an allowed label, the anonymiser returns the text as
    it is with an empty lookup table, no counter is touched, and the
    deanonymiser gives the text back. *)
Theorem nothing_detected_nothing_changed {pattern : Type}
    (finditer : pattern -> string -> list string) (nlp : string -> Doc)
    (text : string) (pii_config : list (string * (pattern * string))) :
  (forall entry, In entry pii_config -> finditer (fst (snd entry)) text = []) ->
  (forall x, In x (ents_and_tokens (nlp text)) ->
     allowed (label_of x) = false) ->
  anonymize_state finditer nlp text pii_config = initial text /\
  anonymize_text_including_proper_nouns_and_addresses
    finditer nlp text pii_config = (text, []) /\
  deanonymize_text
    (snd (anonymize_text_including_proper_nouns_and_addresses
            finditer nlp text pii_config))
    (fst (anonymize_text_including_proper_nouns_and_addresses
            finditer nlp text pii_config)) = text.
Proof.
  intros Hre Hnlp.
  assert (E : anonymize_state finditer nlp text pii_config = initial text).
  { unfold anonymize_state.
    rewrite (regex_pass_no_match finditer text pii_config _ Hre).
    now apply entity_pass_all_disallowed. }
  unfold anonymize_text_including_proper_nouns_and_addresses.
  rewrite E. repeat split.
Qed.

Lemma nothing_detected_nothing_changed_witness :
  anonymize_text_including_proper_nouns_and_addresses
    re_finditer nlp_date_only "nothing of note, due 2020" pii_config
  = ("nothing of note, due 2020", []).
Proof.
  apply (nothing_detected_nothing_changed re_finditer nlp_date_only
           "nothing of note, due 2020" pii_config).
  - intros entry [<-|[<-|[<-|[<-|[]]]]]; reflexivity.
  - intros x Hx. vm_compute in Hx.
    destruct Hx as [<-|[]]; reflexivity.
Defined.

(** ** The candidates and the counters *)

(** X2.  The candidates of the entity pass are the entities of the
    document, whatever their label, and the tokens tagged [PROPN], each as
    often as the document has it: the list processed is a rearrangement of
    the entities followed by the proper-noun tokens.  A token with another
    tag is never a candidate. *)
Theorem candidates_are_entities_and_proper_nouns (doc : Doc) :
  Permutation
    (map Ent (ents doc)
     ++ map Tok (List.filter (fun t => String.eqb (pos_ t) "PROPN")
                             (tokens doc)))%list
    (ents_and_tokens doc) /\
  (forall x,
     In x (ents_and_tokens doc) <->
     (exists e, x = Ent e /\ In e (ents doc)) \/
     (exists t, x = Tok t /\ In t (tokens doc) /\ pos_ t = "PROPN")) /\
  List.length (ents_and_tokens doc)
  = List.length (ents doc)
    + List.length (List.filter (fun t => String.eqb (pos_ t) "PROPN")
                               (tokens doc)).
Proof.
  pose proof (sorted_by_neg_len_perm (ents_and_tokens_unsorted doc)) as Hp.
  fold (ents_and_tokens doc) in Hp. split; [exact Hp|]. split.
  - intros x.
    assert (Hx : In x (ents_and_tokens doc)
                 <-> In x (ents_and_tokens_unsorted doc)).
    { split; apply Permutation_in; [now symmetry | exact Hp]. }
    rewrite Hx. unfold ents_and_tokens_unsorted.
    rewrite in_app_iff, !in_map_iff. split.
    + intros [(e & <- & He)|(t & <- & Ht)].
      * left. now exists e.
      * right. apply filter_In in Ht as [Ht Hpos].
        apply String.eqb_eq in Hpos. now exists t.
    + intros [(e & -> & He)|(t & -> & Ht & Hpos)].
      * left. now exists e.
      * right. exists t. split; [reflexivity|].
        apply filter_In. split; [exact Ht | now apply String.eqb_eq].
  - rewrite <- (Permutation_length Hp). unfold ents_and_tokens_unsorted.
    now rewrite List.length_app, !List.length_map.
Qed.

Lemma candidates_are_entities_and_proper_nouns_witness :
  In (Tok (mkToken "June" "PROPN")) (ents_and_tokens (nlp_due_june "")).
Proof.
  apply (proj1 (proj2 (candidates_are_entities_and_proper_nouns
                         (nlp_due_june "")))).
  right. exists (mkToken "June" "PROPN").
  split; [reflexivity|]. split; [|reflexivity].
  cbn. auto.
Defined.

Lemma entity_step_counter (st : state) (x : ent_or_token) (lbl : string) :
  counters (entity_step st x) !!! lbl
  = counters st !!! lbl
    + (if allowed (label_of x) && String.eqb (label_of x) lbl
       then 1 else 0).
Proof.
  unfold entity_step. cbv zeta.
  destruct (allowed (label_of x)) eqn:Hal;
    [rewrite andb_true_l | now rewrite andb_false_l, Nat.add_0_r].
  assert (E : counters
                {| anonymized_text := anonymized_text st;
                   lookup_table := lookup_table st;
                   counters := <[label_of x := counters st !!! label_of x + 1]>
                                 (counters st) |} !!! lbl
              = counters st !!! lbl
                + (if String.eqb (label_of x) lbl then 1 else 0)).
  { cbn [counters]. destruct (String.eqb_spec (label_of x) lbl) as [->|Hne].
    - now rewrite lookup_total_insert_eq.
    - rewrite lookup_total_insert_ne by exact Hne.
      now rewrite Nat.add_0_r. }
  destruct (occurs (text_of x) (anonymized_text st)); exact E.
Qed.

(** X3.  After the entity pass the counter of an allowed label has grown by
    the number of candidates that carry the label, whether they were
    replaced or skipped; every other counter is as before. *)
Theorem entity_pass_counts_candidates (l : list ent_or_token) (st : state)
    (lbl : string) :
  counters (entity_pass l st) !!! lbl
  = counters st !!! lbl + (if allowed lbl then count_label lbl l else 0).
Proof.
  revert st. induction l as [|x l IH]; intros st.
  - cbn [entity_pass fold_left]. unfold count_label.
    cbn [List.filter List.length]. destruct (allowed lbl); lia.
  - cbn [entity_pass fold_left]. fold (entity_pass l (entity_step st x)).
    rewrite IH, entity_step_counter. unfold count_label.
    cbn [List.filter].
    destruct (String.eqb_spec (label_of x) lbl) as [->|Hne].
    + rewrite andb_true_r. destruct (allowed lbl); cbn [List.length]; lia.
    + rewrite andb_false_r. lia.
Qed.

(** ** The order of the lookup table *)

Lemma keys_dict_set_all (recs d : dict) :
  exists extra,
    keys (dict_set_all recs d) = (keys d ++ extra)%list /\
    forall k, In k extra -> In k (keys recs).
Proof.
  revert d. induction recs as [|[k v] recs IH]; intros d.
  - exists []. split; [now rewrite List.app_nil_r | intros k []].
  - change (dict_set_all ((k, v) :: recs) d)
      with (dict_set_all recs (dict_set k v d)).
    destruct (IH (dict_set k v d)) as (extra & E & Hin).
    rewrite keys_dict_set in E.
    destruct (dict_get k d).
    + exists extra. split; [exact E|].
      intros k' Hk'. right. now apply Hin.
    + exists (k :: extra). split.
      * now rewrite E, <- List.app_assoc.
      * intros k' [<-|Hk']; [now left | right; now apply Hin].
Qed.

Lemma entity_records_keys (l : list ent_or_token) (st : state) (k : string) :
  In k (keys (entity_records l st)) ->
  exists lbl n, allowed lbl = true /\ k = entity_placeholder lbl n
                /\ (counters st !!! lbl < n)%nat.
Proof.
  revert st. induction l as [|x l IH]; intros st; [intros []|].
  cbn [entity_records]. unfold keys. rewrite map_app, in_app_iff.
  intros [Hin|Hin].
  - unfold entity_record in Hin.
    destruct (allowed (label_of x)) eqn:Hal; [|destruct Hin].
    destruct (occurs (text_of x) (anonymized_text st)); [|destruct Hin].
    destruct Hin as [<-|[]].
    exists (label_of x), (counters st !!! label_of x + 1).
    repeat split; [exact Hal | lia].
  - destruct (IH _ Hin) as (lbl & n & Hal & -> & Hn).
    exists lbl, n. repeat split; [exact Hal|].
    rewrite entity_step_counter in Hn. lia.
Qed.

(** X4.  The lookup table only grows at its end: a pass keeps the keys it
    finds, in their order, and adds its new keys after them.  So in the
    table the anonymiser returns the keys of the regex pass come first, and
    every key after them is an entity placeholder; this is the order in
    which the deanonymiser replaces. *)
Theorem lookup_table_grows_at_the_end {pattern : Type}
    (finditer : pattern -> string -> list string) (nlp : string -> Doc)
    (text : string) (pii_config : list (string * (pattern * string))) :
  (forall st, exists extra,
     keys (lookup_table (regex_pass finditer text pii_config st))
     = (keys (lookup_table st) ++ extra)%list) /\
  (forall l st, exists extra,
     keys (lookup_table (entity_pass l st))
     = (keys (lookup_table st) ++ extra)%list) /\
  (exists extra,
     keys (snd (anonymize_text_including_proper_nouns_and_addresses
                  finditer nlp text pii_config))
     = (keys (lookup_table
                (regex_pass finditer text pii_config (initial text)))
        ++ extra)%list /\
     forall k, In k extra ->
       exists lbl n, allowed lbl = true /\ k = entity_placeholder lbl n).
Proof.
  split; [|split].
  - intros st. rewrite regex_pass_table.
    destruct (keys_dict_set_all
                (regex_records finditer text pii_config st)
                (lookup_table st)) as (extra & E & _).
    now exists extra.
  - intros l st. rewrite entity_pass_table.
    destruct (keys_dict_set_all (entity_records l st) (lookup_table st))
      as (extra & E & _).
    now exists extra.
  - unfold anonymize_text_including_proper_nouns_and_addresses,
      anonymize_state. cbn [snd].
    rewrite entity_pass_table.
    destruct (keys_dict_set_all
                (entity_records
                   (ents_and_tokens
                      (nlp (anonymized_text
                              (regex_pass finditer text pii_config
                                          (initial text)))))
                   (regex_pass finditer text pii_config (initial text)))
                (lookup_table
                   (regex_pass finditer text pii_config (initial text))))
      as (extra & E & Hin).
    exists extra. split; [exact E|].
    intros k Hk. destruct (entity_records_keys _ _ _ (Hin k Hk))
      as (lbl & n & Hal & -> & _).
    now exists lbl, n.
Qed.

(** ** Where the entries of the lookup table come from *)

Lemma In_dict_set (k v k' v' : string) (d : dict) :
  In (k, v) (dict_set k' v' d) -> (k, v) = (k', v') \/ In (k, v) d.
Proof.
  induction d as [|[k0 v0] d IH]; cbn [dict_set].
  - intros [H|[]]. left. now symmetry.
  - destruct (String.eqb_spec k0 k') as [->|Hne].
    + intros [H|H]; [left; now symmetry | right; now right].
    + intros [H|H]; [right; now left|].
      destruct (IH H); [now left | right; now right].
Qed.

Lemma In_dict_set_all (k v : string) (recs d : dict) :
  In (k, v) (dict_set_all recs d) -> In (k, v) recs \/ In (k, v) d.
Proof.
  revert d. induction recs as [|[k' v'] recs IH]; intros d; [now right|].
  change (dict_set_all ((k', v') :: recs) d)
    with (dict_set_all recs (dict_set k' v' d)).
  intros H. destruct (IH _ H) as [H'|H']; [left; now right|].
  destruct (In_dict_set _ _ _ _ _ H') as [E|E];
    [left; left; now symmetry | now right].
Qed.

Lemma regex_type_records_In (pii_type placeholder : string)
    (matches : list string) (st : state) (k v : string) :
  In (k, v) (regex_type_records pii_type placeholder matches st) ->
  In v matches /\ exists n, (1 <= n)%nat /\ k = placeholder +:+ str n.
Proof.
  revert st. induction matches as [|o ms IH]; intros st; [intros []|].
  cbn [regex_type_records regex_record].
  intros [[= <- <-]|H].
  - split; [now left|]. eexists. split; [|reflexivity]. lia.
  - destruct (IH _ H) as (Hv & n & Hn & ->).
    split; [now right | now exists n].
Qed.

Lemma entity_records_In (l : list ent_or_token) (st : state)
    (k v : string) :
  In (k, v) (entity_records l st) ->
  exists x n, In x l /\ allowed (label_of x) = true /\ v = text_of x
              /\ (1 <= n)%nat /\ k = entity_placeholder (label_of x) n.
Proof.
  revert st. induction l as [|x l IH]; intros st; [intros []|].
  cbn [entity_records]. rewrite in_app_iff. intros [H|H].
  - unfold entity_record in H.
    destruct (allowed (label_of x)) eqn:Hal; [|destruct H].
    destruct (occurs (text_of x) (anonymized_text st)); [|destruct H].
    destruct H as [[= <- <-]|[]].
    exists x, (counters st !!! label_of x + 1).
    repeat split; [now left | exact Hal | lia].
  - destruct (IH _ H) as (y & n & Hy & Hal & -> & Hn & ->).
    exists y, n. repeat split; [now right | exact Hal | exact Hn].
Qed.

Lemma regex_records_In {pattern : Type}
    (finditer : pattern -> string -> list string) (text : string)
    (pii_config : list (string * (pattern * string))) (st : state)
    (k v : string) :
  In (k, v) (regex_records finditer text pii_config st) ->
  exists entry n,
    In entry pii_config /\ In v (finditer (fst (snd entry)) text)
    /\ (1 <= n)%nat /\ k = snd (snd entry) +:+ str n.
Proof.
  revert st. induction pii_config as [|entry cfg IH]; intros st; [intros []|].
  cbn [regex_records]. rewrite in_app_iff. intros [H|H].
  - apply regex_type_records_In in H as (Hv & n & Hn & ->).
    exists entry, n. repeat split; [now left | exact Hv | exact Hn].
  - destruct (IH _ H) as (e & n & He & Hv & Hn & ->).
    exists e, n. repeat split; [now right | exact Hv | exact Hn].
Qed.

(** X9.  The anonymiser invents nothing: every entry of the lookup table it
    returns maps a configured prefix followed by a positive number to a
    match of that entry's pattern in the original text, or a bracketed
    allowed label followed by a positive number to the text of a candidate
    the tagger found in the text left by the regex pass. *)
Theorem lookup_entries_come_from_the_text {pattern : Type}
    (finditer : pattern -> string -> list string) (nlp : string -> Doc)
    (text : string) (pii_config : list (string * (pattern * string)))
    (k v : string) :
  In (k, v)
     (snd (anonymize_text_including_proper_nouns_and_addresses
             finditer nlp text pii_config)) ->
  (exists entry n,
     In entry pii_config /\ In v (finditer (fst (snd entry)) text)
     /\ (1 <= n)%nat /\ k = snd (snd entry) +:+ str n) \/
  (exists x n,
     In x (ents_and_tokens
             (nlp (anonymized_text
                     (regex_pass finditer text pii_config (initial text)))))
     /\ allowed (label_of x) = true /\ v = text_of x
     /\ (1 <= n)%nat /\ k = "[" +:+ label_of x +:+ str n +:+ "]").
Proof.
  rewrite anonymize_table. intros H.
  apply In_dict_set_all in H as [H|[]].
  unfold records in H. rewrite in_app_iff in H. destruct H as [H|H].
  - left. exact (regex_records_In finditer text pii_config _ k v H).
  - right. now apply entity_records_In in H.
Qed.

Lemma lookup_entries_come_from_the_text_witness :
  (exists entry n,
     In entry pii_config
     /\ In "a@b.com"
           (re_finditer (fst (snd entry))
              "Call Paul Haggerty at 123-456-7890 or a@b.com")
     /\ (1 <= n)%nat /\ "[EMAIL]1" = snd (snd entry) +:+ str n) \/
  (exists x n,
     In x (ents_and_tokens
             (nlp_contact
                (anonymized_text
                   (regex_pass re_finditer
                      "Call Paul Haggerty at 123-456-7890 or a@b.com"
                      pii_config
                      (initial
                         "Call Paul Haggerty at 123-456-7890 or a@b.com")))))
     /\ allowed (label_of x) = true /\ "a@b.com" = text_of x
     /\ (1 <= n)%nat /\ "[EMAIL]1" = "[" +:+ label_of x +:+ str n +:+ "]").
Proof.
  apply (lookup_entries_come_from_the_text re_finditer nlp_contact
           "Call Paul Haggerty at 123-456-7890 or a@b.com" pii_config).
  vm_compute. auto.
Defined.

(** ** The keys, described *)

Lemma keys_regex_type_records (pii_type placeholder : string)
    (matches : list string) (st : state) :
  keys (regex_type_records pii_type placeholder matches st)
  = map render
      (regex_type_descrs placeholder (counters st !!! pii_type) matches).
Proof.
  revert st. induction matches as [|o ms IH]; intros st; [reflexivity|].
  cbn [regex_type_records regex_type_descrs keys map fst regex_record render].
  f_equal. unfold keys in IH. rewrite IH.
  cbn [regex_step counters]. now rewrite lookup_total_insert_eq.
Qed.

Lemma keys_entity_records (l : list ent_or_token) (st : state) :
  keys (entity_records l st) = map render (entity_descrs l st).
Proof.
  revert st. induction l as [|x l IH]; intros st; [reflexivity|].
  cbn [entity_records entity_descrs]. unfold keys in *.
  rewrite !map_app, IH. f_equal. unfold entity_record.
  now destruct (allowed (label_of x)),
               (occurs (text_of x) (anonymized_text st)).
Qed.

Lemma regex_type_descrs_In (placeholder : string) (c : nat)
    (matches : list string) (d : key_descr) :
  In d (regex_type_descrs placeholder c matches) ->
  exists n, d = RegexKey placeholder n
            /\ (c < n <= c + List.length matches)%nat.
Proof.
  revert c. induction matches as [|o ms IH]; intros c; [intros []|].
  cbn [regex_type_descrs List.length]. intros [<-|H].
  - exists (c + 1). split; [reflexivity | lia].
  - destruct (IH _ H) as (n & -> & Hn). exists n. split; [reflexivity | lia].
Qed.

Lemma regex_type_descrs_NoDup (placeholder : string) (c : nat)
    (matches : list string) :
  List.NoDup (regex_type_descrs placeholder c matches).
Proof.
  revert c. induction matches as [|o ms IH]; intros c; [constructor|].
  cbn [regex_type_descrs]. constructor; [|apply IH].
  intros H. apply regex_type_descrs_In in H as (n & [= <-] & Hn). lia.
Qed.

Lemma entity_descrs_In (l : list ent_or_token) (st : state)
    (d : key_descr) :
  In d (entity_descrs l st) ->
  exists lbl n, d = EntityKey lbl n /\ allowed lbl = true
                /\ (counters st !!! lbl < n)%nat.
Proof.
  revert st. induction l as [|x l IH]; intros st; [intros []|].
  cbn [entity_descrs]. rewrite in_app_iff. intros [H|H].
  - destruct (allowed (label_of x)) eqn:Hal; [|destruct H].
    destruct (occurs (text_of x) (anonymized_text st)); [|destruct H].
    destruct H as [<-|[]].
    exists (label_of x), (counters st !!! label_of x + 1).
    repeat split; [exact Hal | lia].
  - destruct (IH _ H) as (lbl & n & -> & Hal & Hn).
    exists lbl, n. repeat split; [exact Hal|].
    rewrite entity_step_counter in Hn. lia.
Qed.

Lemma entity_descrs_NoDup (l : list ent_or_token) (st : state) :
  List.NoDup (entity_descrs l st).
Proof.
  revert st. induction l as [|x l IH]; intros st; [constructor|].
  cbn [entity_descrs].
  destruct (allowed (label_of x) && occurs (text_of x) (anonymized_text st))
    eqn:E; [|apply IH].
  cbn [app]. constructor; [|apply IH].
  intros H. apply entity_descrs_In in H as (lbl & n & [= <- <-] & _ & Hn).
  apply andb_prop in E as [Hal _].
  rewrite entity_step_counter, Hal, String.eqb_refl in Hn.
  cbn [andb] in Hn. lia.
Qed.

Section DescriptorFacts.

Context {pattern : Type}.
Variable finditer : pattern -> string -> list string.
Variable nlp : string -> Doc.

Lemma keys_regex_records (text : string)
    (pii_config : list (string * (pattern * string))) (st : state) :
  keys (regex_records finditer text pii_config st)
  = map render (regex_descrs finditer text pii_config st).
Proof.
  revert st. induction pii_config as [|entry cfg IH]; intros st;
    [reflexivity|].
  cbn [regex_records regex_descrs]. unfold keys in *.
  rewrite !map_app, IH. f_equal. apply keys_regex_type_records.
Qed.

Lemma keys_records (text : string)
    (pii_config : list (string * (pattern * string))) :
  keys (records finditer nlp text pii_config)
  = map render (descrs finditer nlp text pii_config).
Proof.
  unfold records, descrs, keys. rewrite !map_app. f_equal.
  - apply keys_regex_records.
  - apply keys_entity_records.
Qed.

Lemma regex_descrs_In (text : string)
    (pii_config : list (string * (pattern * string))) (st : state)
    (d : key_descr) :
  In d (regex_descrs finditer text pii_config st) ->
  exists entry n, In entry pii_config /\ d = RegexKey (snd (snd entry)) n
                  /\ (1 <= n)%nat.
Proof.
  revert st. induction pii_config as [|entry cfg IH]; intros st; [intros []|].
  cbn [regex_descrs]. rewrite in_app_iff. intros [H|H].
  - apply regex_type_descrs_In in H as (n & -> & Hn).
    exists entry, n. repeat split; [now left | lia].
  - destruct (IH _ H) as (e & n & He & -> & Hn).
    exists e, n. repeat split; [now right | exact Hn].
Qed.

Lemma regex_descrs_bounded (text : string)
    (pii_config : list (string * (pattern * string))) (st : state)
    (d : key_descr) :
  List.NoDup (map fst pii_config) ->
  (forall entry, In entry pii_config -> counters st !!! fst entry = 0) ->
  In d (regex_descrs finditer text pii_config st) ->
  exists entry n,
    In entry pii_config /\ d = RegexKey (snd (snd entry)) n
    /\ (1 <= n <= List.length (finditer (fst (snd entry)) text))%nat.
Proof.
  revert st.
  induction pii_config as [|[ty [pat ph]] cfg IH]; intros st Hnd Hzero;
    [intros []|].
  apply List.NoDup_cons_iff in Hnd as [Hty Hnd]. cbn [map fst] in Hty.
  cbn [regex_descrs fst snd]. rewrite in_app_iff. intros [H|H].
  - apply regex_type_descrs_In in H as (n & -> & Hn).
    pose proof (Hzero (ty, (pat, ph)) (or_introl eq_refl)) as Hz.
    cbn [fst] in Hz. rewrite Hz in Hn.
    exists (ty, (pat, ph)), n. cbn [fst snd].
    split; [now left|]. split; [reflexivity | lia].
  - assert (Hzero' : forall entry, In entry cfg ->
              counters (regex_type finditer text st (ty, (pat, ph)))
              !!! fst entry = 0).
    { intros entry Hin. cbn [regex_type].
      destruct (regex_type_spec ty ph (finditer pat text) st)
        as (_ & _ & H3).
      cbv zeta in H3. rewrite H3.
      - apply Hzero. now right.
      - intros E. apply Hty. rewrite <- E. now apply in_map. }
    destruct (IH _ Hnd Hzero' H) as (e & n & He & -> & Hn).
    exists e, n. split; [now right|]. split; [reflexivity | exact Hn].
Qed.

Lemma regex_descrs_NoDup (text : string)
    (pii_config : list (string * (pattern * string))) (st : state) :
  List.NoDup (map (fun entry => snd (snd entry)) pii_config) ->
  List.NoDup (regex_descrs finditer text pii_config st).
Proof.
  revert st. induction pii_config as [|entry cfg IH]; intros st Hnd;
    [constructor|].
  apply List.NoDup_cons_iff in Hnd as [Hph Hnd]. cbn [regex_descrs].
  apply List.NoDup_app; [apply regex_type_descrs_NoDup | now apply IH |].
  intros d Hd Hd'.
  apply regex_type_descrs_In in Hd as (n & -> & _).
  apply regex_descrs_In in Hd' as (e & m & He & [= E _] & _).
  apply Hph. rewrite E.
  now apply (in_map (fun entry => snd (snd entry))).
Qed.

Lemma descrs_NoDup (text : string)
    (pii_config : list (string * (pattern * string))) :
  List.NoDup (map (fun entry => snd (snd entry)) pii_config) ->
  List.NoDup (descrs finditer nlp text pii_config).
Proof.
  intros Hnd. unfold descrs.
  apply List.NoDup_app;
    [now apply regex_descrs_NoDup | apply entity_descrs_NoDup |].
  intros d Hd Hd'.
  apply regex_descrs_In in Hd as (e & n & _ & -> & _).
  now apply entity_descrs_In in Hd' as (lbl & m & [=] & _).
Qed.

End DescriptorFacts.

(** ** Telling keys apart *)

Lemma closed_inv (s : string) :
  closed s = true ->
  exists body, s = body +:+ "]" /\ has_char "]" body = false.
Proof.
  induction s as [|c rest IH]; [discriminate|].
  cbn [closed]. destruct rest as [|c' rest'].
  - intros Hc. apply Ascii.eqb_eq in Hc as ->. now exists "".
  - intros [Hc Hrest]%andb_prop. apply negb_true_iff in Hc.
    destruct (IH Hrest) as (body & E & Hbody).
    exists (String c body). cbn [String.append has_char].
    rewrite <- E, Hbody, Ascii.eqb_sym, Hc. now split.
Qed.

Lemma str_nonempty (n : nat) : str n <> "".
Proof.
  unfold str, NilZero.string_of_uint.
  destruct (Nat.to_uint n); discriminate.
Qed.

Lemma str_has_digit (n : nat) : has_digit (str n) = true.
Proof.
  unfold str, NilZero.string_of_uint.
  destruct (Nat.to_uint n); reflexivity.
Qed.

Lemma has_digit_app (a b : string) :
  has_digit (a +:+ b) = has_digit a || has_digit b.
Proof.
  induction a as [|c a IH]; cbn [String.append has_digit]; [reflexivity|].
  now rewrite IH, orb_assoc.
Qed.

Lemma str_single (n : nat) :
  (1 <= n <= 9)%nat -> exists c, str n = String c "".
Proof.
  intros Hn.
  destruct n as [|[|[|[|[|[|[|[|[|[|n]]]]]]]]]]; try lia;
    eexists; reflexivity.
Qed.

Lemma is_prefix_false (a b : string) :
  (forall r, b <> a +:+ r) -> is_prefix a b = false.
Proof.
  intros H. unfold is_prefix.
  now rewrite (proj2 (strip_prefix_None a b) H).
Qed.

Lemma is_prefix_true (a b : string) :
  is_prefix a b = true -> exists r, b = a +:+ r.
Proof.
  unfold is_prefix. destruct (strip_prefix a b) as [r|] eqn:E;
    [|discriminate].
  intros _. exists r. now apply strip_prefix_Some.
Qed.

Lemma entity_key_body (l : string) (n : nat) (r : string) :
  allowed l = true ->
  entity_placeholder l n +:+ r = (String "[" (l +:+ str n)) +:+ String "]" r
  /\ has_char "]" (String "[" (l +:+ str n)) = false.
Proof.
  intros Hl. split.
  - rewrite entity_placeholder_shape. cbn [String.append].
    now rewrite str_app_assoc.
  - cbn [has_char]. now rewrite entity_body_no_bracket by auto.
Qed.

Lemma regex_key_body (body : string) (n : nat) (r : string) :
  ((body +:+ "]") +:+ str n) +:+ r = body +:+ String "]" (str n +:+ r).
Proof. now rewrite !str_app_assoc. Qed.

(** If one described key starts another, their closed parts agree and what
    follows the closing bracket of the first starts what follows that of
    the second. *)
Lemma render_prefix (a b : key_descr) (r : string) :
  key_ok a = true -> key_ok b = true -> render b = render a +:+ r ->
  match a, b with
  | RegexKey pa n, RegexKey pb m => pa = pb /\ str m = str n +:+ r
  | RegexKey pa n, EntityKey lb m => False
  | EntityKey la n, RegexKey pb m =>
      pb = entity_placeholder la n /\ str m = r
  | EntityKey la n, EntityKey lb m => la = lb /\ n = m
  end.
Proof.
  destruct a as [pa n|la n], b as [pb m|lb m]; cbn [key_ok render];
    intros Ha Hb E.
  - apply closed_inv in Ha as (ba & -> & Hba).
    apply closed_inv in Hb as (bb & -> & Hbb).
    rewrite regex_key_body in E.
    rewrite <- (str_app_nil_r ((bb +:+ "]") +:+ str m)) in E.
    rewrite regex_key_body, str_app_nil_r in E.
    pose proof (until_char_inj _ _ _ _ _ Hbb Hba E) as ->.
    apply String.app_inj in E. now injection E as ->.
  - apply closed_inv in Ha as (ba & -> & Hba).
    rewrite regex_key_body in E.
    rewrite <- (str_app_nil_r (entity_placeholder lb m)) in E.
    destruct (entity_key_body lb m "" Hb) as [Eb Hbb]. rewrite Eb in E.
    pose proof (until_char_inj _ _ _ _ _ Hbb Hba E) as <-.
    apply String.app_inj in E. injection E as E.
    destruct (str n) eqn:En; [now apply str_nonempty in En | discriminate].
  - apply closed_inv in Hb as (bb & -> & Hbb).
    destruct (entity_key_body la n r Ha) as [Ea Hba]. rewrite Ea in E.
    rewrite <- (str_app_nil_r ((bb +:+ "]") +:+ str m)) in E.
    rewrite regex_key_body, str_app_nil_r in E.
    pose proof (until_char_inj _ _ _ _ _ Hbb Hba E) as ->.
    apply String.app_inj in E. injection E as ->.
    split; [|reflexivity].
    rewrite entity_placeholder_shape. cbn [String.append].
    now rewrite str_app_assoc.
  - destruct (entity_key_body la n r Ha) as [Ea Hba]. rewrite Ea in E.
    rewrite <- (str_app_nil_r (entity_placeholder lb m)) in E.
    destruct (entity_key_body lb m "" Hb) as [Eb Hbb]. rewrite Eb in E.
    pose proof (until_char_inj _ _ _ _ _ Hbb Hba E) as E'.
    injection E' as E'. now apply entity_body_inj in E'.
Qed.

Lemma render_inj (a b : key_descr) :
  key_ok a = true -> key_ok b = true -> render a = render b -> a = b.
Proof.
  intros Ha Hb E.
  pose proof (render_prefix a b "" Ha Hb) as H.
  rewrite str_app_nil_r in H. specialize (H (eq_sym E)).
  destruct a as [pa n|la n], b as [pb m|lb m].
  - destruct H as [-> H]. rewrite str_app_nil_r in H.
    now apply str_inj in H as ->.
  - destruct H.
  - destruct H as [_ H]. now apply str_nonempty in H.
  - now destruct H as [-> ->].
Qed.

Lemma key_small_ok (d : key_descr) : key_small d = true -> key_ok d = true.
Proof.
  destruct d as [p n|l n]; cbn [key_small key_ok]; [|auto].
  intros H. now repeat (apply andb_prop in H as [H _]).
Qed.

Lemma render_incomparable (a b : key_descr) :
  key_small a = true -> key_small b = true -> a <> b ->
  is_prefix (render a) (render b) = false.
Proof.
  intros Ha Hb Hne. apply is_prefix_false. intros r E.
  pose proof (render_prefix a b r (key_small_ok a Ha) (key_small_ok b Hb) E)
    as H.
  destruct a as [pa n|la n], b as [pb m|lb m]; cbn [key_small] in Ha, Hb.
  - destruct H as [-> H]. apply Hne. f_equal. apply str_inj.
    repeat (apply andb_prop in Ha as [Ha ?]).
    repeat (apply andb_prop in Hb as [Hb ?]).
    destruct (str_single n) as [cn En]; [split; now apply Nat.leb_le|].
    destruct (str_single m) as [cm Em]; [split; now apply Nat.leb_le|].
    rewrite En, Em in H |- *. cbn [String.append] in H.
    now injection H as -> _.
  - destruct H.
  - destruct H as [-> _].
    repeat (apply andb_prop in Hb as [Hb ?]).
    match goal with
    | Hd : negb (has_digit _) = true |- _ =>
        apply negb_true_iff in Hd;
        rewrite entity_placeholder_shape in Hd; cbn [has_digit] in Hd;
        rewrite !has_digit_app, str_has_digit in Hd
    end.
    rewrite orb_true_r in *. cbn [orb] in *. rewrite orb_true_r in *.
    discriminate.
  - destruct H as [-> ->]. now apply Hne.
Qed.

Lemma prefix_free_map (ds : list key_descr) :
  (forall d, In d ds -> key_small d = true) -> List.NoDup ds ->
  prefix_free (map render ds) = true.
Proof.
  induction ds as [|d ds IH]; intros Hs Hnd; [reflexivity|].
  apply List.NoDup_cons_iff in Hnd as [Hd Hnd].
  cbn [map prefix_free]. apply andb_true_intro. split.
  - apply forallb_forall. intros k (d' & <- & Hd')%in_map_iff.
    assert (Hne : d <> d') by (intros ->; contradiction).
    rewrite !render_incomparable; auto using in_eq, in_cons.
  - apply IH; [|exact Hnd]. intros d' Hd'. apply Hs. now right.
Qed.

(** X5.  Whatever state the entity pass starts from and however many
    candidates it replaces, the placeholders it records are pairwise
    distinct and none starts another: an entity entry is never overwritten
    by a later entity entry, and restoring one entity placeholder cannot
    hit another. *)
Theorem entity_placeholders_prefix_free (l : list ent_or_token)
    (st : state) :
  prefix_free (keys (entity_records l st)) = true /\
  List.NoDup (keys (entity_records l st)).
Proof.
  assert (H : prefix_free (keys (entity_records l st)) = true).
  { rewrite keys_entity_records. apply prefix_free_map.
    - intros d Hd. apply entity_descrs_In in Hd as (lbl & n & -> & Hal & _).
      exact Hal.
    - apply entity_descrs_NoDup. }
  split; [exact H | now apply prefix_free_NoDup].
Qed.

(** ** No entry is overwritten *)

(** X6.  When the configured types are distinct and the configured
    prefixes are distinct and each ends with its only ["]"], as those of
    [pii_config] do, all the keys the anonymiser records are distinct, for
    every text, matcher and tagger and however high the counters go: no
    entry of the lookup table is ever overwritten, and the table returned
    is the list of what was recorded, in order. *)
Theorem no_entry_overwritten {pattern : Type}
    (finditer : pattern -> string -> list string) (nlp : string -> Doc)
    (text : string) (pii_config : list (string * (pattern * string))) :
  List.NoDup (map (fun entry => snd (snd entry)) pii_config) ->
  (forall entry, In entry pii_config -> closed (snd (snd entry)) = true) ->
  List.NoDup (keys (records finditer nlp text pii_config)) /\
  snd (anonymize_text_including_proper_nouns_and_addresses
         finditer nlp text pii_config)
  = records finditer nlp text pii_config.
Proof.
  intros Hph Hclosed.
  assert (Hnd : List.NoDup (keys (records finditer nlp text pii_config))).
  { rewrite keys_records. apply List.NoDup_map_NoDup_ForallPairs.
    - assert (Hok : forall d, In d (descrs finditer nlp text pii_config) ->
                      key_ok d = true).
      { intros d Hd. unfold descrs in Hd. apply in_app_iff in Hd as [Hd|Hd].
        - apply regex_descrs_In in Hd as (e & n & He & -> & _).
          now apply Hclosed.
        - now apply entity_descrs_In in Hd as (lbl & n & -> & Hal & _). }
      intros a b Ha Hb E. apply render_inj; auto.
    - now apply descrs_NoDup. }
  split; [exact Hnd|].
  rewrite anonymize_table. now apply dict_set_all_fresh.
Qed.

Lemma pii_config_prefixes_distinct :
  List.NoDup (map (fun entry => snd (snd entry)) pii_config).
Proof.
  repeat (constructor; [cbn; intuition discriminate|]). constructor.
Qed.

Lemma no_entry_overwritten_witness :
  snd (anonymize_text_including_proper_nouns_and_addresses
         re_finditer nlp_paul "Paul Haggerty met Paul" pii_config)
  = records re_finditer nlp_paul "Paul Haggerty met Paul" pii_config.
Proof.
  apply (no_entry_overwritten re_finditer nlp_paul "Paul Haggerty met Paul"
           pii_config pii_config_prefixes_distinct).
  intros entry [<-|[<-|[<-|[<-|[]]]]]; reflexivity.
Defined.

(** ** Below ten matches *)

(** X7.  When moreover the types are distinct, no prefix holds a digit and
    no pattern has more than nine matches in the text, no recorded
    placeholder starts another recorded placeholder, however many entities
    the tagger finds: the deanonymiser cannot hit one placeholder inside
    another. *)
Theorem placeholders_prefix_free_below_ten {pattern : Type}
    (finditer : pattern -> string -> list string) (nlp : string -> Doc)
    (text : string) (pii_config : list (string * (pattern * string))) :
  List.NoDup (map fst pii_config) ->
  List.NoDup (map (fun entry => snd (snd entry)) pii_config) ->
  (forall entry, In entry pii_config ->
     closed (snd (snd entry)) = true /\
     has_digit (snd (snd entry)) = false /\
     (List.length (finditer (fst (snd entry)) text) <= 9)%nat) ->
  prefix_free (keys (records finditer nlp text pii_config)) = true.
Proof.
  intros Hty Hph Hcfg. rewrite keys_records.
  apply prefix_free_map; [|now apply descrs_NoDup].
  intros d Hd. unfold descrs in Hd. apply in_app_iff in Hd as [Hd|Hd].
  - apply regex_descrs_bounded in Hd as (e & n & He & -> & Hn1 & Hn2);
      [|exact Hty|intros entry _; cbn [initial counters];
                  now rewrite lookup_total_empty].
    destruct (Hcfg e He) as (Hc & Hdig & Hlen).
    cbn [key_small]. rewrite Hc, Hdig. cbn [negb andb].
    apply andb_true_intro. split; apply Nat.leb_le; lia.
  - now apply entity_descrs_In in Hd as (lbl & n & -> & Hal & _).
Qed.

Lemma placeholders_prefix_free_below_ten_witness :
  prefix_free
    (keys (records re_finditer nlp_ten_persons ten_persons_text pii_config))
  = true.
Proof.
  apply (placeholders_prefix_free_below_ten re_finditer nlp_ten_persons
           ten_persons_text pii_config pii_config_types_distinct
           pii_config_prefixes_distinct).
  intros entry [<-|[<-|[<-|[<-|[]]]]]; repeat split; vm_compute; lia.
Defined.

(** With ten matches of one pattern the tenth placeholder starts with the
    first, and the round trip is lost. *)
Example ten_phone_numbers_collide :
  let text :=
    "100-000-0001 100-000-0002 100-000-0003 100-000-0004 100-000-0005 "
    +:+ "100-000-0006 100-000-0007 100-000-0008 100-000-0009 100-000-0010"
  in
  let out :=
    anonymize_text_including_proper_nouns_and_addresses
      re_finditer no_entities text pii_config in
  prefix_free (keys (snd out)) = false /\
  deanonymize_text (snd out) (fst out) <> text.
Proof.
  cbv zeta. split; [vm_compute; reflexivity|]. vm_compute. discriminate.
Qed.

(** ** The order of the lookup table does not matter *)

Lemma prefix_free_spec (ks : list string) :
  prefix_free ks = true <->
  List.NoDup ks /\
  (forall a b, In a ks -> In b ks -> a <> b -> is_prefix a b = false).
Proof.
  induction ks as [|k ks IH].
  - split; [intros _; split; [constructor | intros a b []] | reflexivity].
  - split.
    + intros H. apply prefix_free_cons in H as (Hin & Hinc & Hks).
      apply IH in Hks as [Hnd Hpair]. split; [now constructor|].
      intros a b [<-|Ha] [<-|Hb] Hne.
      * congruence.
      * now apply Hinc.
      * now apply Hinc.
      * now apply Hpair.
    + intros [Hnd Hpair]. apply List.NoDup_cons_iff in Hnd as [Hin Hnd].
      cbn [prefix_free]. apply andb_true_intro. split.
      * apply forallb_forall. intros k' Hk'.
        assert (Hne : k <> k') by (intros ->; contradiction).
        rewrite !Hpair; auto using in_eq, in_cons.
      * apply IH. split; [exact Hnd|].
        intros a b Ha Hb. apply Hpair; now right.
Qed.

Lemma prefix_free_perm (ks ks' : list string) :
  Permutation ks ks' -> prefix_free ks = true -> prefix_free ks' = true.
Proof.
  intros Hp H. apply prefix_free_spec in H as [Hnd Hpair].
  apply prefix_free_spec. split.
  - exact (Permutation_NoDup Hp Hnd).
  - intros a b Ha Hb. apply Hpair; eapply Permutation_in;
      try (symmetry; exact Hp); assumption.
Qed.

(** X8.  On a text made of stretches without ["["] and of placeholders of
    the table, the order in which the lookup table lists its entries does
    not matter, as long as every key starts with its only ["["], no key
    starts another and the originals hold no ["["]: any rearrangement of
    the table restores the same text, the one the placeholders stand
    for. *)
Theorem deanonymize_order_irrelevant (recs recs' : dict)
    (ps : list piece) :
  Permutation recs recs' ->
  forallb bracketed (keys recs) = true ->
  prefix_free (keys recs) = true ->
  lits_plain ps ->
  (forall k o, In (Ph k o) ps -> In (k, o) recs /\ has_char "[" o = false) ->
  deanonymize_text recs' (anon_of ps) = deanonymize_text recs (anon_of ps)
  /\ deanonymize_text recs (anon_of ps) = orig_of ps.
Proof.
  intros Hp Hb Hpf Hl Hph.
  assert (Hk : Permutation (keys recs) (keys recs'))
    by (unfold keys; now apply Permutation_map).
  rewrite (deanonymize_pieces recs ps Hb Hpf Hl Hph).
  split; [|reflexivity].
  apply deanonymize_pieces.
  - apply forallb_forall. intros k Hin.
    rewrite forallb_forall in Hb. apply Hb.
    eapply Permutation_in; [symmetry; exact Hk | exact Hin].
  - exact (prefix_free_perm _ _ Hk Hpf).
  - exact Hl.
  - intros k o Hin. destruct (Hph k o Hin) as [Hrec Ho].
    split; [|exact Ho]. eapply Permutation_in; [exact Hp | exact Hrec].
Qed.

Lemma deanonymize_order_irrelevant_witness :
  deanonymize_text
    [("[PERSON1]", "Paul Haggerty"); ("[PHONE]1", "123-456-7890")]
    (anon_of [Lit "Call "; Ph "[PERSON1]" "Paul Haggerty"; Lit " at ";
              Ph "[PHONE]1" "123-456-7890"])
  = deanonymize_text
      [("[PHONE]1", "123-456-7890"); ("[PERSON1]", "Paul Haggerty")]
      (anon_of [Lit "Call "; Ph "[PERSON1]" "Paul Haggerty"; Lit " at ";
                Ph "[PHONE]1" "123-456-7890"]).
Proof.
  refine (proj1 (deanonymize_order_irrelevant
            [("[PHONE]1", "123-456-7890"); ("[PERSON1]", "Paul Haggerty")]
            [("[PERSON1]", "Paul Haggerty"); ("[PHONE]1", "123-456-7890")]
            [Lit "Call "; Ph "[PERSON1]" "Paul Haggerty"; Lit " at ";
             Ph "[PHONE]1" "123-456-7890"] _ _ _ _ _)).
  - apply perm_swap.
  - reflexivity.
  - reflexivity.
  - intros s [[= <-]|[[=]|[[= <-]|[[=]|[]]]]]; reflexivity.
  - intros k o [[=]|[[= <- <-]|[[=]|[[= <- <-]|[]]]]]; split; cbn; auto.
Defined.

(** * Replacements in turn: placeholders, precedence and order *)

(** ** A replacement inside a placeholder already inserted *)

(** C1.  The round trip is lost at ["123-45-6789 is my SSN"].  Every
    recorded original occurs once in the text, every counter stands at 1
    and no recorded placeholder is a prefix of another, but the entity pass
    finds the proper noun [SSN] first inside the placeholder ["[SSN]1"]
    that the regex pass has just inserted and rewrites it there.  The text
    returned is ["[[PROPN1]]1 is my SSN"], and deanonymising it with the
    returned table gives ["[SSN]1 is my SSN"], not the input. *)
Theorem round_trip_broken_inside_placeholder :
  let text := "123-45-6789 is my SSN" in
  let out :=
    anonymize_text_including_proper_nouns_and_addresses
      re_finditer nlp_my_ssn text pii_config in
  out = ("[[PROPN1]]1 is my SSN",
         [("[SSN]1", "123-45-6789"); ("[PROPN1]", "SSN")]) /\
  deanonymize_text (snd out) (fst out) = "[SSN]1 is my SSN" /\
  ~ round_trip_as_stated re_finditer nlp_my_ssn text pii_config.
Proof.
  cbv zeta. split; [vm_compute; reflexivity|].
  split; [vm_compute; reflexivity|].
  intros H. cbv zeta in H.
  assert (E : deanonymize_text
                (snd (anonymize_text_including_proper_nouns_and_addresses
                        re_finditer nlp_my_ssn "123-45-6789 is my SSN"
                        pii_config))
                (fst (anonymize_text_including_proper_nouns_and_addresses
                        re_finditer nlp_my_ssn "123-45-6789 is my SSN"
                        pii_config))
              = "123-45-6789 is my SSN").
  { apply H.
    - vm_compute. reflexivity.
    - apply (bool_decide_unpack _). vm_compute. exact I.
    - vm_compute. reflexivity. }
  vm_compute in E. discriminate E.
Qed.

(** C8.  Deanonymising twice is not deanonymising once at
    ["555-123-4567 is my PHONE"].  The entity pass rewrites the proper noun
    [PHONE] inside the placeholder ["[PHONE]1"], so the text returned is
    ["[[PROPN1]]1 is my PHONE"].  The first deanonymisation puts [PHONE]
    back and thereby rebuilds ["[PHONE]1"]; the second one finds that
    placeholder and replaces it by the phone number. *)
Theorem deanonymize_twice_differs_inside_placeholder :
  let text := "555-123-4567 is my PHONE" in
  let out :=
    anonymize_text_including_proper_nouns_and_addresses
      re_finditer nlp_my_phone text pii_config in
  out = ("[[PROPN1]]1 is my PHONE",
         [("[PHONE]1", "555-123-4567"); ("[PROPN1]", "PHONE")]) /\
  deanonymize_text (snd out) (fst out) = "[PHONE]1 is my PHONE" /\
  deanonymize_text (snd out) (deanonymize_text (snd out) (fst out))
  = "555-123-4567 is my PHONE" /\
  ~ deanonymize_idempotent_on re_finditer nlp_my_phone text pii_config.
Proof.
  cbv zeta. split; [vm_compute; reflexivity|].
  split; [vm_compute; reflexivity|].
  split; [vm_compute; reflexivity|].
  intros H. cbv zeta in H.
  specialize (H "[[PROPN1]]1 is my PHONE").
  vm_compute in H. discriminate H.
Qed.

(** ** The first occurrence *)

Lemma occurs_cut (o s : string) :
  occurs o s = true -> exists u v, cut o s = Some (u, v).
Proof.
  induction s as [|c s IH]; cbn [occurs cut].
  - destruct (strip_prefix o "") as [rest|]; [eauto | discriminate].
  - destruct (strip_prefix o (String c s)) as [rest|]; [eauto|].
    intros H. destruct (IH H) as (u & v & ->). eauto.
Qed.

Lemma replace_first_cut (o k s u v : string) :
  cut o s = Some (u, v) -> replace_first o k s = u +:+ k +:+ v.
Proof.
  revert u. induction s as [|c s IH]; intros u; cbn [cut replace_first].
  - destruct (strip_prefix o "") as [rest|]; [|discriminate].
    intros [= <- <-]. reflexivity.
  - destruct (strip_prefix o (String c s)) as [rest|].
    + intros [= <- <-]. reflexivity.
    + destruct (cut o s) as [[a b]|]; [|discriminate].
      intros [= <- <-]. cbn. now rewrite (IH a).
Qed.

Lemma cut_leftmost (o s u v : string) :
  cut o s = Some (u, v) ->
  forall u' v', s = u' +:+ o +:+ v' ->
                (String.length u <= String.length u')%nat.
Proof.
  revert u. induction s as [|c s IH]; intros u; cbn [cut].
  - destruct (strip_prefix o "") as [rest|]; [|discriminate].
    intros [= <- <-] u' v' _. cbn. lia.
  - destruct (strip_prefix o (String c s)) as [rest|] eqn:Hs.
    + intros [= <- <-] u' v' _. cbn. lia.
    + destruct (cut o s) as [[a b]|] eqn:Hc; [|discriminate].
      intros [= <- <-] u' v' E. destruct u' as [|c' u'].
      * cbn in E. rewrite E, strip_prefix_app in Hs. discriminate.
      * cbn in E. injection E as _ E. cbn.
        specialize (IH a eq_refl u' v' E). lia.
Qed.

(** [s.replace(o, k, 1)] when [o in s]: the text before the leftmost
    occurrence of [o] and the text after it are kept, the occurrence gives
    way to [k]. *)
Lemma replace_first_split (o k s : string) :
  occurs o s = true ->
  exists u v,
    s = u +:+ o +:+ v /\
    replace_first o k s = u +:+ k +:+ v /\
    (forall u' v', s = u' +:+ o +:+ v' ->
                   (String.length u <= String.length u')%nat).
Proof.
  intros H. destruct (occurs_cut o s H) as (u & v & Hc).
  exists u, v. split; [now apply cut_Some|].
  split; [now apply replace_first_cut | now apply (cut_leftmost o s u v)].
Qed.

(** ** Emails before websites *)

Section Precedence.

Context {pattern : Type}.
Variable finditer : pattern -> string -> list string.

Lemma regex_pass_cons (text : string) (entry : string * (pattern * string))
    (cfg : list (string * (pattern * string))) (st : state) :
  regex_pass finditer text (entry :: cfg) st
  = regex_pass finditer text cfg (regex_type finditer text st entry).
Proof. reflexivity. Qed.

Lemma regex_type_counter_other (text : string) (st : state)
    (entry : string * (pattern * string)) (ty : string) :
  ty <> fst entry ->
  counters (regex_type finditer text st entry) !!! ty = counters st !!! ty.
Proof.
  destruct entry as [ty' [pat ph]]. cbn [fst regex_type]. intros Hne.
  now apply (regex_type_spec ty' ph (finditer pat text) st).
Qed.

Lemma regex_pass_counter_other (text : string)
    (cfg : list (string * (pattern * string))) (st : state) (ty : string) :
  ~ In ty (map fst cfg) ->
  counters (regex_pass finditer text cfg st) !!! ty = counters st !!! ty.
Proof.
  revert st. induction cfg as [|entry cfg IH]; intros st Hnin; [reflexivity|].
  rewrite regex_pass_cons.
  rewrite IH by (intros Hin; apply Hnin; right; exact Hin).
  apply regex_type_counter_other.
  intros ->. apply Hnin. left. reflexivity.
Qed.

End Precedence.

(** The turn of one match in the loop over the matches of one type. *)
Lemma regex_match_in_turn (pii_type placeholder : string) (st0 : state)
    (earlier : list string) (d : string) (later : list string) :
  let s := fold_left (regex_step pii_type placeholder) earlier st0 in
  let s' := regex_step pii_type placeholder s d in
  let n := counters st0 !!! pii_type + List.length earlier + 1 in
  fold_left (regex_step pii_type placeholder) (earlier ++ d :: later) st0
  = fold_left (regex_step pii_type placeholder) later s' /\
  counters s' !!! pii_type = n /\
  (occurs d (anonymized_text s) = false ->
   anonymized_text s' = anonymized_text s) /\
  (occurs d (anonymized_text s) = true ->
   exists u v,
     anonymized_text s = u +:+ d +:+ v /\
     anonymized_text s' = u +:+ (placeholder +:+ str n) +:+ v /\
     (forall u' v', anonymized_text s = u' +:+ d +:+ v' ->
                    (String.length u <= String.length u')%nat)).
Proof.
  intros s s' n.
  destruct (regex_type_spec pii_type placeholder earlier st0)
    as (_ & Hn & _).
  fold s in Hn.
  split; [now rewrite fold_left_app|].
  split.
  { subst s' n. cbn [regex_step counters]. rewrite lookup_total_insert_eq.
    now rewrite Hn. }
  split.
  { intros Habs. subst s'. cbn [regex_step anonymized_text].
    now apply replace_first_absent. }
  intros Hocc. subst s'. cbn [regex_step anonymized_text]. rewrite Hn.
  fold n. now apply replace_first_split.
Qed.

(** C7, amended.  In a configuration whose type names are distinct and in
    which the email entry stands before the website entry, the pass is the
    loop over the entries before the email entry, then the loop over the
    email matches, then the entries in between, then the loop over the
    website matches, then the rest: every email match has had its turn
    before the first website match has.  Both patterns are matched against
    the original text, so a fragment of an email is a website match as any
    other: each counter ends at the number of all matches of its pattern,
    and each match in its turn advances the counter by one and gives way to
    [placeholder + counter] at the leftmost place of the working text where
    its text still stands.  If its text stands nowhere any more, as for a
    domain that stood only inside an email replaced before, the working
    text is left as it is. *)
Theorem email_matches_replaced_before_website_matches {pattern : Type}
    (finditer : pattern -> string -> list string) (text : string)
    (before between after : list (string * (pattern * string)))
    (email_type website_type : string) (email_pattern website_pattern : pattern)
    (email_placeholder website_placeholder : string) :
  let email := (email_type, (email_pattern, email_placeholder)) in
  let website := (website_type, (website_pattern, website_placeholder)) in
  let pii_config := (before ++ email :: between ++ website :: after)%list in
  List.NoDup (map fst pii_config) ->
  let st_before := regex_pass finditer text before (initial text) in
  let st_email := regex_type finditer text st_before email in
  let st_between := regex_pass finditer text between st_email in
  let st_website := regex_type finditer text st_between website in
  let st := regex_pass finditer text pii_config (initial text) in
  st = regex_pass finditer text after st_website /\
  counters st !!! email_type
  = List.length (finditer email_pattern text) /\
  counters st !!! website_type
  = List.length (finditer website_pattern text) /\
  (forall (earlier : list string) (e : string) (later : list string),
     finditer email_pattern text = (earlier ++ e :: later)%list ->
     let s :=
       fold_left (regex_step email_type email_placeholder) earlier st_before in
     let s' := regex_step email_type email_placeholder s e in
     let n := List.length earlier + 1 in
     st_email
     = fold_left (regex_step email_type email_placeholder) later s' /\
     counters s' !!! email_type = n /\
     (occurs e (anonymized_text s) = false ->
      anonymized_text s' = anonymized_text s) /\
     (occurs e (anonymized_text s) = true ->
      exists u v,
        anonymized_text s = u +:+ e +:+ v /\
        anonymized_text s' = u +:+ (email_placeholder +:+ str n) +:+ v /\
        (forall u' v', anonymized_text s = u' +:+ e +:+ v' ->
                       (String.length u <= String.length u')%nat))) /\
  (forall (earlier : list string) (d : string) (later : list string),
     finditer website_pattern text = (earlier ++ d :: later)%list ->
     let s :=
       fold_left (regex_step website_type website_placeholder)
                 earlier st_between in
     let s' := regex_step website_type website_placeholder s d in
     let n := List.length earlier + 1 in
     st_website
     = fold_left (regex_step website_type website_placeholder) later s' /\
     counters s' !!! website_type = n /\
     (occurs d (anonymized_text s) = false ->
      anonymized_text s' = anonymized_text s) /\
     (occurs d (anonymized_text s) = true ->
      exists u v,
        anonymized_text s = u +:+ d +:+ v /\
        anonymized_text s' = u +:+ (website_placeholder +:+ str n) +:+ v /\
        (forall u' v', anonymized_text s = u' +:+ d +:+ v' ->
                       (String.length u <= String.length u')%nat))).
Proof.
  intros email website pii_config Hnd st_before st_email st_between
         st_website st.
  assert (Hsplit : st = regex_pass finditer text after st_website).
  { subst st pii_config.
    rewrite regex_pass_app, regex_pass_cons, regex_pass_app, regex_pass_cons.
    reflexivity. }
  destruct (regex_pass_spec finditer text pii_config (initial text) Hnd)
    as (_ & Hcount & _).
  { intros entry _. cbn [initial counters]. now rewrite lookup_total_empty. }
  fold st in Hcount.
  split; [exact Hsplit|]. split.
  { apply (Hcount email). subst pii_config. apply in_or_app. right. now left. }
  split.
  { apply (Hcount website). subst pii_config. apply in_or_app. right. right.
    apply in_or_app. right. now left. }
  assert (He : ~ In email_type
                   (map fst before
                    ++ map fst (between ++ website :: after))%list).
  { apply List.NoDup_remove_2. subst pii_config.
    rewrite map_app in Hnd. exact Hnd. }
  assert (Hw : ~ In website_type
                   ((map fst before ++ email_type :: map fst between)
                    ++ map fst after)%list).
  { apply List.NoDup_remove_2. subst pii_config.
    rewrite map_app in Hnd. cbn [map fst] in Hnd.
    rewrite map_app in Hnd. cbn [map fst] in Hnd.
    rewrite <- app_assoc. exact Hnd. }
  assert (Hzero_e : counters st_before !!! email_type = 0).
  { subst st_before. rewrite regex_pass_counter_other.
    2:{ intros Hin. apply He. apply in_or_app. left. exact Hin. }
    cbn [initial counters]. now rewrite lookup_total_empty. }
  assert (Hzero_w : counters st_between !!! website_type = 0).
  { subst st_between st_email.
    rewrite regex_pass_counter_other.
    2:{ intros Hin. apply Hw. apply in_or_app. left. apply in_or_app.
        right. right. exact Hin. }
    rewrite regex_type_counter_other.
    2:{ cbn [fst]. intros ->. apply Hw. apply in_or_app. left.
        apply in_or_app. right. left. reflexivity. }
    subst st_before. rewrite regex_pass_counter_other.
    2:{ intros Hin. apply Hw. apply in_or_app. left. apply in_or_app.
        left. exact Hin. }
    cbn [initial counters]. now rewrite lookup_total_empty. }
  split.
  - intros earlier e later Hms.
    pose proof (regex_match_in_turn email_type email_placeholder st_before
                  earlier e later) as H.
    cbv zeta in H. rewrite Hzero_e in H. cbn [Nat.add] in H.
    cbv zeta. subst st_email email. cbn [regex_type]. rewrite Hms.
    exact H.
  - intros earlier d later Hms.
    pose proof (regex_match_in_turn website_type website_placeholder
                  st_between earlier d later) as H.
    cbv zeta in H. rewrite Hzero_w in H. cbn [Nat.add] in H.
    cbv zeta. subst st_website website. cbn [regex_type]. rewrite Hms.
    exact H.
Qed.

Lemma email_matches_replaced_before_website_matches_witness :
  let text := "Call 123-456-7890 or email a@b.com" in
  let st := regex_pass re_finditer text pii_config (initial text) in
  counters st !!! "text_address" = 1 /\
  counters st !!! "website" = 1 /\
  anonymized_text st = "Call [PHONE]1 or email [EMAIL]1".
Proof.
  cbv zeta.
  pose proof (email_matches_replaced_before_website_matches
                re_finditer "Call 123-456-7890 or email a@b.com"
                [("phone_number", (phone_number_re, "[PHONE]"))]
                [("social_security_number",
                  (social_security_number_re, "[SSN]"))]
                []
                "text_address" "website" text_address_re website_re
                "[EMAIL]" "[WEBSITE]") as H.
  cbv zeta in H.
  destruct H as (Hst & Hemail & Hweb & _ & Hstep).
  - repeat constructor; cbn; intuition discriminate.
  - split; [exact Hemail|]. split; [exact Hweb|].
    destruct (Hstep [] "b.com" []) as (Hend & _ & Habsent & _).
    + vm_compute. reflexivity.
    + change (regex_pass re_finditer "Call 123-456-7890 or email a@b.com"
                pii_config (initial "Call 123-456-7890 or email a@b.com"))
        with (regex_pass re_finditer "Call 123-456-7890 or email a@b.com"
                ([("phone_number", (phone_number_re, "[PHONE]"))]
                 ++ ("text_address", (text_address_re, "[EMAIL]"))
                 :: [("social_security_number",
                      (social_security_number_re, "[SSN]"))]
                 ++ ("website", (website_re, "[WEBSITE]")) :: [])
                (initial "Call 123-456-7890 or email a@b.com")).
      rewrite Hst, Hend.
      etransitivity;
        [apply Habsent; vm_compute; reflexivity | vm_compute; reflexivity].
Defined.

(** ** Longest candidate first *)

Lemma sorted_earlier_not_shorter (l1 l2 : list ent_or_token)
    (x y : ent_or_token) :
  StronglySorted not_shorter (l1 ++ x :: l2) -> In y l1 ->
  (len x <= len y)%nat.
Proof.
  induction l1 as [|z l1 IH]; cbn [app]; intros Hs Hy; [destruct Hy|].
  inversion Hs as [|? ? Hs' Hall]; subst. destruct Hy as [->|Hy].
  - rewrite List.Forall_forall in Hall. apply (Hall x).
    apply in_or_app. right. now left.
  - now apply IH.
Qed.

Lemma entity_placeholder_inj (l1 l2 : string) (n m : nat) :
  allowed l1 = true -> allowed l2 = true ->
  entity_placeholder l1 n = entity_placeholder l2 m -> l1 = l2 /\ n = m.
Proof.
  intros H1 H2 E.
  assert (Hd : EntityKey l1 n = EntityKey l2 m)
    by (apply render_inj; assumption).
  now inversion Hd.
Qed.

(** A key that the entity pass writes is not written again later in the
    pass. *)
Lemma entity_step_key_kept (l : list ent_or_token) (st : state)
    (x : ent_or_token) :
  allowed (label_of x) = true ->
  occurs (text_of x) (anonymized_text st) = true ->
  dict_get (entity_placeholder (label_of x) (counters st !!! label_of x + 1))
           (lookup_table (entity_pass l (entity_step st x)))
  = Some (text_of x).
Proof.
  intros Hal Hocc. rewrite entity_pass_table, dict_get_set_all.
  set (k := entity_placeholder (label_of x) (counters st !!! label_of x + 1)).
  destruct (dict_get k (rev (entity_records l (entity_step st x))))
    as [v|] eqn:Hget.
  - exfalso.
    assert (Hin : In k (keys (rev (entity_records l (entity_step st x))))).
    { destruct (in_dec string_dec k
                  (keys (rev (entity_records l (entity_step st x)))))
        as [Hin|Hnin]; [exact Hin|].
      apply dict_get_None in Hnin. rewrite Hnin in Hget. discriminate. }
    unfold keys in Hin. rewrite map_rev in Hin. apply in_rev in Hin.
    apply entity_records_keys in Hin as (lbl & n & Hlbl & Hk & Hn).
    apply entity_placeholder_inj in Hk as [<- <-]; [|assumption..].
    rewrite entity_step_counter, Hal, String.eqb_refl in Hn.
    cbn [andb] in Hn. lia.
  - rewrite (entity_step_present st x Hal Hocc). cbv zeta.
    cbn [lookup_table]. fold k. rewrite dict_get_set.
    now rewrite String.eqb_refl.
Qed.

(** C4, amended.  The candidates are the entities followed by the
    proper-noun tokens, rearranged by descending text length, candidates of
    one length keeping their order.  So when a candidate [b] comes up, the
    candidates processed before it are not shorter than it: none of them is
    a proper part of [b], and every candidate that is a proper part of [b]
    is still to come.  What [b]'s turn does depends on the label filter and
    on the presence test.  With an allowed label and its text still in the
    working text, the leftmost occurrence of the whole phrase gives way to
    one placeholder, and the lookup table that is returned maps that
    placeholder to the phrase.  With an allowed label and its text gone,
    the text and the table stay as they are.  With a label that is not
    allowed, such as [DATE], the turn changes nothing at all: the phrase
    gets no placeholder, and its parts are processed after it on their
    own. *)
Theorem longest_candidate_first {pattern : Type}
    (finditer : pattern -> string -> list string) (nlp : string -> Doc)
    (text : string) (pii_config : list (string * (pattern * string)))
    (l1 : list ent_or_token) (b : ent_or_token) (l2 : list ent_or_token) :
  let st := regex_pass finditer text pii_config (initial text) in
  let doc := nlp (anonymized_text st) in
  let out :=
    anonymize_text_including_proper_nouns_and_addresses
      finditer nlp text pii_config in
  ents_and_tokens doc = (l1 ++ b :: l2)%list ->
  let st_b := entity_pass l1 st in
  let k :=
    entity_placeholder (label_of b) (counters st_b !!! label_of b + 1) in
  Permutation (ents_and_tokens_unsorted doc) (ents_and_tokens doc) /\
  StronglySorted not_shorter (ents_and_tokens doc) /\
  (forall n,
     of_len n (ents_and_tokens doc) = of_len n (ents_and_tokens_unsorted doc)) /\
  (forall a, In a l1 -> proper_substring (text_of a) (text_of b) = false) /\
  (forall a, In a (ents_and_tokens doc) ->
             proper_substring (text_of a) (text_of b) = true -> In a l2) /\
  anonymize_state finditer nlp text pii_config
  = entity_pass l2 (entity_step st_b b) /\
  (allowed (label_of b) = true ->
   occurs (text_of b) (anonymized_text st_b) = true ->
   (exists u v,
      anonymized_text st_b = u +:+ text_of b +:+ v /\
      anonymized_text (entity_step st_b b) = u +:+ k +:+ v /\
      (forall u' v', anonymized_text st_b = u' +:+ text_of b +:+ v' ->
                     (String.length u <= String.length u')%nat)) /\
   dict_get k (snd out) = Some (text_of b)) /\
  (allowed (label_of b) = true ->
   occurs (text_of b) (anonymized_text st_b) = false ->
   anonymized_text (entity_step st_b b) = anonymized_text st_b /\
   lookup_table (entity_step st_b b) = lookup_table st_b) /\
  (allowed (label_of b) = false -> entity_step st_b b = st_b).
Proof.
  intros st doc out Hsplit st_b k.
  pose proof (sorted_by_neg_len_sorted (ents_and_tokens_unsorted doc)) as Hs.
  fold (ents_and_tokens doc) in Hs.
  assert (Hbefore : forall a, In a l1 ->
                      proper_substring (text_of a) (text_of b) = false).
  { intros a Ha.
    destruct (proper_substring (text_of a) (text_of b)) eqn:Hp; [|reflexivity].
    apply proper_substring_shorter in Hp.
    rewrite Hsplit in Hs.
    pose proof (sorted_earlier_not_shorter l1 l2 b a Hs Ha) as Hle.
    unfold len in Hle. lia. }
  assert (Hrun : anonymize_state finditer nlp text pii_config
                 = entity_pass l2 (entity_step st_b b)).
  { unfold anonymize_state. cbv zeta. fold st. fold doc. rewrite Hsplit.
    rewrite entity_pass_app. reflexivity. }
  split; [apply sorted_by_neg_len_perm|].
  split; [exact Hs|].
  split; [intros n; apply sorted_by_neg_len_stable|].
  split; [exact Hbefore|].
  split.
  { intros a Ha Hp. rewrite Hsplit in Ha.
    apply in_app_or in Ha as [Ha|[<-|Ha]]; [| |exact Ha].
    - rewrite (Hbefore a Ha) in Hp. discriminate.
    - unfold proper_substring in Hp. rewrite String.eqb_refl in Hp.
      rewrite andb_false_r in Hp. discriminate. }
  split; [exact Hrun|].
  split.
  { intros Hal Hocc. split.
    - rewrite (entity_step_present st_b b Hal Hocc). cbv zeta.
      cbn [anonymized_text]. fold k. now apply replace_first_split.
    - subst out. unfold anonymize_text_including_proper_nouns_and_addresses.
      cbv zeta. cbn [snd]. rewrite Hrun.
      now apply entity_step_key_kept. }
  split.
  { intros Hal Habs. rewrite (entity_step_absent st_b b Hal Habs).
    split; reflexivity. }
  intros Hal. now apply entity_step_disallowed.
Qed.

Lemma longest_candidate_first_witness :
  let text := "Paul Haggerty met Paul" in
  let out :=
    anonymize_text_including_proper_nouns_and_addresses
      re_finditer nlp_paul text pii_config in
  (forall a,
     In a (ents_and_tokens (nlp_paul text)) ->
     proper_substring (text_of a) "Paul Haggerty" = true ->
     In a [Tok (mkToken "Haggerty" "PROPN"); Tok (mkToken "Paul" "PROPN");
           Tok (mkToken "Paul" "PROPN")]) /\
  dict_get "[PERSON1]" (snd out) = Some "Paul Haggerty".
Proof.
  cbv zeta.
  pose proof (longest_candidate_first re_finditer nlp_paul
                "Paul Haggerty met Paul" pii_config
                [] (Ent (mkSpan "Paul Haggerty" "PERSON"))
                [Tok (mkToken "Haggerty" "PROPN");
                 Tok (mkToken "Paul" "PROPN");
                 Tok (mkToken "Paul" "PROPN")]) as H.
  cbv zeta in H.
  destruct H as (_ & _ & _ & _ & Hparts & _ & Hturn & _).
  - vm_compute. reflexivity.
  - split; [exact Hparts|].
    destruct Hturn as [_ Hget]; [reflexivity | vm_compute; reflexivity |].
    exact Hget.
Defined.

(** ** Entity placeholders in the deanonymiser *)

Lemma only_upper_digit_app (a b : string) :
  only_upper_digit (a +:+ b) = only_upper_digit a && only_upper_digit b.
Proof.
  induction a as [|c a IH]; cbn [String.append only_upper_digit];
    [reflexivity|].
  now rewrite IH, andb_assoc.
Qed.

Lemma numeral_upper_digit (d : uint) :
  only_upper_digit (NilEmpty.string_of_uint d) = true.
Proof.
  induction d; cbn [NilEmpty.string_of_uint only_upper_digit];
    try reflexivity; rewrite IHd; reflexivity.
Qed.

Lemma str_upper_digit (n : nat) : only_upper_digit (str n) = true.
Proof.
  unfold str, NilZero.string_of_uint.
  destruct (Nat.to_uint n) eqn:E; rewrite <- ?E;
    try apply numeral_upper_digit.
  reflexivity.
Qed.

Lemma entity_body_upper_digit (l : string) (n : nat) :
  allowed l = true -> only_upper_digit (l +:+ str n) = true.
Proof.
  intros Hal. rewrite only_upper_digit_app, str_upper_digit, andb_true_r.
  destruct (allowed_inv l Hal) as [->|[->|[->|[->|[->| ->]]]]]; reflexivity.
Qed.

Lemma plain_name_inv (o : string) :
  plain_name o = true ->
  has_char "[" o = false /\ has_char "]" o = false
  /\ only_upper_digit o = false.
Proof.
  unfold plain_name. rewrite !andb_true_iff, !negb_true_iff. tauto.
Qed.

Lemma plain_name_tail (c : ascii) (o : string) :
  is_upper_or_digit c = true -> plain_name (String c o) = true ->
  plain_name o = true.
Proof.
  intros Hc H. apply plain_name_inv in H as (H1 & H2 & H3).
  cbn [has_char only_upper_digit] in H1, H2, H3.
  apply orb_false_iff in H1 as [_ H1]. apply orb_false_iff in H2 as [_ H2].
  rewrite Hc in H3. cbn [andb] in H3.
  unfold plain_name. now rewrite H1, H2, H3.
Qed.

(** A plain name does not start inside the body of a placeholder. *)
Lemma strip_prefix_in_body (o body r : string) :
  plain_name o = true -> only_upper_digit body = true ->
  strip_prefix o (body +:+ String "]" r) = None.
Proof.
  revert o. induction body as [|c body IH]; intros o Ho Hb.
  - destruct o as [|a o]; [discriminate Ho|].
    apply plain_name_inv in Ho as (_ & H2 & _). cbn [has_char] in H2.
    apply orb_false_iff in H2 as [H2 _].
    cbn [String.append strip_prefix].
    rewrite Ascii.eqb_sym, H2. reflexivity.
  - destruct o as [|a o]; [discriminate Ho|].
    cbn [only_upper_digit] in Hb. apply andb_true_iff in Hb as [Hc Hb].
    cbn [String.append strip_prefix].
    destruct (Ascii.eqb a c) eqn:E; [|reflexivity].
    apply Ascii.eqb_eq in E. subst a.
    apply IH; [now apply (plain_name_tail c) | exact Hb].
Qed.

Lemma replace_first_past_body (o k body r : string) :
  plain_name o = true -> only_upper_digit body = true ->
  replace_first o k (body +:+ String "]" r)
  = body +:+ String "]" (replace_first o k r).
Proof.
  intros Ho. induction body as [|c body IH]; intros Hb.
  - cbn [String.append].
    now rewrite replace_first_later
      by (apply (strip_prefix_in_body o "" r Ho eq_refl)).
  - pose proof (strip_prefix_in_body o (String c body) r Ho Hb) as Hs.
    cbn [String.append] in Hs |- *. rewrite replace_first_later by exact Hs.
    cbn [only_upper_digit] in Hb. apply andb_true_iff in Hb as [_ Hb].
    now rewrite IH.
Qed.

Lemma strip_prefix_at_bracket (o r : string) :
  plain_name o = true -> strip_prefix o (String "[" r) = None.
Proof.
  intros Ho. destruct o as [|a o]; [discriminate Ho|].
  apply plain_name_inv in Ho as (H1 & _ & _). cbn [has_char] in H1.
  apply orb_false_iff in H1 as [H1 _]. cbn [strip_prefix].
  rewrite Ascii.eqb_sym, H1. reflexivity.
Qed.

(** The first occurrence of a plain name is not in an entity placeholder. *)
Lemma replace_first_past_key (o k k' r : string) :
  plain_name o = true -> entity_key k' ->
  replace_first o k (k' +:+ r) = k' +:+ replace_first o k r.
Proof.
  intros Ho (l & n & Hal & ->). rewrite entity_placeholder_shape.
  cbn [String.append].
  rewrite replace_first_later by now apply strip_prefix_at_bracket.
  f_equal. rewrite !(str_app_assoc (l +:+ str n)). cbn [String.append].
  apply replace_first_past_body; [exact Ho|].
  now apply entity_body_upper_digit.
Qed.

Lemma strip_prefix_at_border (o s r : string) :
  plain_name o = true -> at_border r ->
  strip_prefix o s = None -> strip_prefix o (s +:+ r) = None.
Proof.
  intros Ho Hr. apply plain_name_inv in Ho as (Ho & _ & Hne).
  assert (Hne' : o <> "") by (intros ->; discriminate Hne). clear Hne.
  revert o Ho Hne'. induction s as [|c s IH]; intros o Ho Hne Hs.
  - cbn [String.append]. destruct o as [|a o]; [congruence|].
    destruct Hr as [->|[r' ->]]; [reflexivity|].
    cbn [has_char] in Ho. apply orb_false_iff in Ho as [Ho _].
    cbn [strip_prefix]. rewrite Ascii.eqb_sym, Ho. reflexivity.
  - destruct o as [|a o]; [congruence|].
    cbn [String.append strip_prefix] in Hs |- *.
    destruct (Ascii.eqb a c); [|reflexivity].
    cbn [has_char] in Ho. apply orb_false_iff in Ho as [_ Ho].
    apply IH; [exact Ho | | exact Hs].
    intros ->. discriminate Hs.
Qed.

Lemma replace_first_in_lit (o k s a b r : string) :
  plain_name o = true -> at_border r -> cut o s = Some (a, b) ->
  replace_first o k (s +:+ r) = a +:+ k +:+ b +:+ r.
Proof.
  intros Ho Hr. revert a. induction s as [|c s IH]; intros a; cbn [cut].
  - destruct (strip_prefix o "") as [rest|] eqn:E; [|discriminate].
    destruct o; [discriminate Ho | discriminate E].
  - destruct (strip_prefix o (String c s)) as [rest|] eqn:E.
    + intros [= <- <-]. apply strip_prefix_Some in E. rewrite E.
      rewrite str_app_assoc, replace_first_here. reflexivity.
    + destruct (cut o s) as [[a' b']|]; [|discriminate].
      intros [= <- <-].
      pose proof (strip_prefix_at_border o (String c s) r Ho Hr E) as E'.
      cbn [String.append] in E' |- *.
      rewrite replace_first_later by exact E'. now rewrite (IH a').
Qed.

Lemma replace_first_past_lit (o k s r : string) :
  plain_name o = true -> at_border r -> cut o s = None ->
  replace_first o k (s +:+ r) = s +:+ replace_first o k r.
Proof.
  intros Ho Hr. induction s as [|c s IH]; cbn [cut]; [reflexivity|].
  destruct (strip_prefix o (String c s)) as [rest|] eqn:E; [discriminate|].
  destruct (cut o s) as [[a b]|]; [discriminate|]. intros _.
  pose proof (strip_prefix_at_border o (String c s) r Ho Hr E) as E'.
  cbn [String.append] in E' |- *.
  rewrite replace_first_later by exact E'. now rewrite IH.
Qed.

Lemma tidy_border (s : string) (ps : list piece) :
  tidy (Lit s :: ps) -> at_border (anon_of ps).
Proof.
  intros (_ & Hnext & Hps). destruct ps as [|[s'|k' o'] ps'].
  - now left.
  - destruct Hnext.
  - right. destruct Hps as [(l & n & _ & ->) _].
    cbn [anon_of shown]. rewrite entity_placeholder_shape.
    cbn [String.append]. eauto.
Qed.

(** On tidy pieces the replacement of a plain name by [replace_first] is the
    replacement inside the first original stretch that holds it. *)
Lemma place_clean (o k : string) (ps : list piece) :
  plain_name o = true -> tidy ps ->
  anon_of (place o k ps) = replace_first o k (anon_of ps).
Proof.
  intros Ho. induction ps as [|[s|k' o'] ps IH]; intros Ht.
  - cbn [place anon_of replace_first].
    destruct o; [discriminate Ho | reflexivity].
  - pose proof (tidy_border s ps Ht) as Hr. destruct Ht as (_ & _ & Hps).
    cbn [place]. destruct (cut o s) as [[a b]|] eqn:Hc.
    + cbn [anon_of shown].
      now rewrite (replace_first_in_lit o k s a b _ Ho Hr Hc).
    + cbn [anon_of shown]. rewrite (IH Hps).
      now rewrite (replace_first_past_lit o k s _ Ho Hr Hc).
  - destruct Ht as [Hk Hps]. cbn [place anon_of shown].
    rewrite (IH Hps). symmetry. now apply replace_first_past_key.
Qed.

Lemma place_tidy (o k : string) (ps : list piece) :
  has_char "[" o = false -> entity_key k -> tidy ps -> tidy (place o k ps).
Proof.
  intros Ho Hk. induction ps as [|[s|k' o'] ps IH]; intros Ht.
  - exact I.
  - destruct Ht as (Hs & Hnext & Hps). cbn [place].
    destruct (cut o s) as [[a b]|] eqn:Hc.
    + apply cut_Some in Hc. rewrite Hc, !has_char_app in Hs.
      apply orb_false_iff in Hs as [Ha Hs].
      apply orb_false_iff in Hs as [_ Hb].
      cbn [tidy]. repeat split; assumption.
    + cbn [tidy]. split; [exact Hs|]. split; [|now apply IH].
      destruct ps as [|[s'|k' o'] ps']; [exact I | destruct Hnext | exact I].
  - destruct Ht as [Hk' Hps]. cbn [place tidy]. split; [exact Hk'|].
    now apply IH.
Qed.

Lemma entity_records_prefix_free (l : list ent_or_token) (st : state) :
  prefix_free (keys (entity_records l st)) = true.
Proof.
  rewrite keys_entity_records. apply prefix_free_map.
  - intros d Hd. apply entity_descrs_In in Hd as (lbl & n & -> & Hal & _).
    exact Hal.
  - apply entity_descrs_NoDup.
Qed.

Lemma entity_records_entity_keys (l : list ent_or_token) (st : state)
    (k : string) :
  In k (keys (entity_records l st)) -> entity_key k.
Proof.
  intros Hin. apply entity_records_keys in Hin as (lbl & n & Hal & -> & _).
  now exists lbl, n.
Qed.

(** The entity pass on a text of tidy pieces, its candidates being plain
    names: every replacement it makes is inside an original stretch. *)
Lemma entity_clean (l : list ent_or_token) (st : state) (ps : list piece) :
  (forall x, In x l -> allowed (label_of x) = true ->
             plain_name (text_of x) = true) ->
  tidy ps -> anon_of ps = anonymized_text st ->
  clean (entity_records l st) ps = true.
Proof.
  revert st ps. induction l as [|x l IH]; intros st ps Hplain Ht Ha;
    [reflexivity|].
  assert (Hl : forall y, In y l -> allowed (label_of y) = true ->
                         plain_name (text_of y) = true)
    by (intros y Hy; apply Hplain; now right).
  cbn [entity_records]. unfold entity_record.
  destruct (allowed (label_of x)) eqn:Hal.
  - destruct (occurs (text_of x) (anonymized_text st)) eqn:Hocc.
    + pose proof (Hplain x (or_introl eq_refl) Hal) as Ho.
      cbn [andb app clean]. rewrite (place_clean _ _ ps Ho Ht).
      rewrite String.eqb_refl. cbn [andb]. apply IH; [exact Hl | |].
      * apply place_tidy; [now apply plain_name_inv in Ho | | exact Ht].
        now exists (label_of x), (counters st !!! label_of x + 1).
      * rewrite (place_clean _ _ ps Ho Ht), Ha.
        now rewrite (entity_step_present st x Hal Hocc).
    + cbn [andb app]. apply IH; [exact Hl | exact Ht |].
      now rewrite (entity_step_absent st x Hal Hocc).
  - cbn [andb app]. rewrite entity_step_disallowed by exact Hal.
    now apply IH.
Qed.

Lemma regex_records_no_match {pattern : Type}
    (finditer : pattern -> string -> list string) (text : string)
    (pii_config : list (string * (pattern * string))) (st : state) :
  (forall entry, In entry pii_config -> finditer (fst (snd entry)) text = []) ->
  regex_records finditer text pii_config st = [].
Proof.
  revert st.
  induction pii_config as [|[ty [pat ph]] cfg IH]; intros st Hno;
    [reflexivity|].
  cbn [regex_records regex_type fst snd].
  pose proof (Hno (ty, (pat, ph)) (or_introl eq_refl)) as E.
  cbn [fst snd] in E. rewrite E. cbn [regex_type_records fold_left app].
  apply IH. intros entry Hin. apply Hno. now right.
Qed.

(** A key that ends with a number is not a key that ends with ["]"]. *)
Lemma numbered_not_closed (a b c : string) :
  has_char "]" b = false -> b <> "" -> a +:+ b <> c +:+ "]".
Proof.
  intros Hb Hne. revert c. induction a as [|x a IH]; intros c E.
  - cbn [String.append] in E. rewrite E, has_char_app in Hb.
    cbn in Hb. now rewrite orb_true_r in Hb.
  - destruct c as [|y c]; cbn [String.append] in E.
    + injection E as _ E. destruct a; [|discriminate E].
      cbn [String.append] in E. contradiction.
    + injection E as _ E. now apply (IH c).
Qed.

Lemma replace_own_key (k v pre post : string) :
  bracketed k = true ->
  replace k v (pre +:+ k +:+ post)
  = replace k v pre +:+ v +:+ replace k v post.
Proof.
  intros Hk. destruct (bracketed_inv k Hk) as (body & Ek & _).
  assert (Hne : k <> "") by (rewrite Ek; discriminate).
  assert (E : k +:+ post = String "[" (body +:+ post))
    by (rewrite Ek; reflexivity).
  rewrite E, replace_at_bracket by exact Hk.
  rewrite <- E, replace_here by exact Hne. reflexivity.
Qed.

(** Replacing one entity placeholder leaves another one whole, however the
    two numbers compare: the closing bracket follows the number. *)
Lemma replace_other_entity_key (k k' v pre post : string) :
  entity_key k -> entity_key k' -> k <> k' ->
  occurs k k' = false /\
  replace k v (pre +:+ k' +:+ post)
  = replace k v pre +:+ k' +:+ replace k v post.
Proof.
  intros (l1 & n & H1 & ->) (l2 & m & H2 & ->) Hne.
  assert (Hne' : (l1, n) <> (l2, m)) by (intros [= -> ->]; now apply Hne).
  clear Hne.
  pose proof (entity_placeholder_bracketed l1 n H1) as Hk.
  pose proof (entity_placeholder_no_prefix l1 l2 n m) as Hno.
  specialize (fun rest => Hno rest H1 H2 Hne').
  assert (Htail : has_char "[" ((l2 +:+ str m) +:+ "]") = false).
  { rewrite has_char_app, entity_body_no_bracket by auto. reflexivity. }
  generalize dependent (entity_placeholder l1 n). intros k Hk Hno.
  rewrite (entity_placeholder_shape l2 m) in *.
  split.
  - specialize (Hno ""). rewrite str_app_nil_r in Hno.
    cbn [occurs]. rewrite Hno. now apply occurs_bracketed.
  - specialize (Hno post). cbn [String.append] in Hno |- *.
    rewrite replace_at_bracket by exact Hk. f_equal.
    rewrite replace_later by exact Hno. f_equal.
    now apply replace_through.
Qed.

Lemma entity_key_bracketed (k : string) : entity_key k -> bracketed k = true.
Proof. intros (l & n & Hal & ->). now apply entity_placeholder_bracketed. Qed.

(** A placeholder of the entity pass, wherever it stands in a text, is
    restored whole: the entries before its own pass it by, and its own entry
    puts the original in its place. *)
Lemma deanonymize_entity_key_whole (E1 E2 : dict) (k v pre post : string) :
  entity_key k ->
  (forall k', In k' (keys E1) -> entity_key k' /\ k' <> k) ->
  deanonymize_text (E1 ++ (k, v) :: E2) (pre +:+ k +:+ post)
  = deanonymize_text E2
      (deanonymize_text (E1 ++ [(k, v)]) pre +:+ v
       +:+ deanonymize_text (E1 ++ [(k, v)]) post).
Proof.
  intros Hk. revert pre post.
  induction E1 as [|[k' v'] E1 IH]; intros pre post Hother.
  - cbn [app]. rewrite !deanonymize_cons, !deanonymize_nil.
    now rewrite replace_own_key by now apply entity_key_bracketed.
  - cbn [app]. rewrite !deanonymize_cons.
    destruct (Hother k' (or_introl eq_refl)) as [Hk' Hne].
    rewrite (proj2 (replace_other_entity_key k' k v' pre post Hk' Hk Hne)).
    apply IH. intros k'' Hin. apply Hother. now right.
Qed.

Section EntityEntries.

Context {pattern : Type}.
Variable finditer : pattern -> string -> list string.
Variable nlp : string -> Doc.

Lemma regex_table_keys_numbered (text : string)
    (pii_config : list (string * (pattern * string))) (k : string) :
  In k (keys (lookup_table
                (regex_pass finditer text pii_config (initial text)))) ->
  exists placeholder n, k = placeholder +:+ str n.
Proof.
  rewrite regex_pass_table. cbn [initial lookup_table].
  destruct (keys_dict_set_all
              (regex_records finditer text pii_config (initial text)) [])
    as (extra & -> & Hextra).
  cbn [keys map app]. intros Hin. apply Hextra in Hin.
  rewrite keys_regex_records in Hin. apply in_map_iff in Hin as (d & <- & Hd).
  apply regex_descrs_In in Hd as (entry & n & _ & -> & _).
  now exists (snd (snd entry)), n.
Qed.

(** The table returned is the table of the regex pass followed by what the
    entity pass records: an entity entry overwrites nothing. *)
Lemma entity_entries_appended (text : string)
    (pii_config : list (string * (pattern * string))) :
  let st := regex_pass finditer text pii_config (initial text) in
  snd (anonymize_text_including_proper_nouns_and_addresses
         finditer nlp text pii_config)
  = (lookup_table st
     ++ entity_records (ents_and_tokens (nlp (anonymized_text st))) st)%list.
Proof.
  intros st.
  unfold anonymize_text_including_proper_nouns_and_addresses, anonymize_state.
  cbv zeta. cbn [snd]. fold st. rewrite entity_pass_table.
  apply dict_set_all_fresh. apply List.NoDup_app.
  - subst st. rewrite regex_pass_table. apply dict_set_all_NoDup.
    constructor.
  - apply prefix_free_NoDup, entity_records_prefix_free.
  - intros k Hreg Hent.
    apply regex_table_keys_numbered in Hreg as (p & n & ->).
    apply entity_records_entity_keys in Hent as (l & m & _ & E).
    rewrite entity_placeholder_shape in E.
    apply (numbered_not_closed p (str n) (String "[" (l +:+ str m))).
    + apply str_no_bracket. now right.
    + apply str_nonempty.
    + exact E.
Qed.

End EntityEntries.

(** C9.  However many entities a call of the anonymiser replaces, so that
    it hands out placeholders such as ["[PERSON10]"] beside ["[PERSON1]"],
    deanonymising with the table it returns makes no partial match of one
    entity placeholder inside another.  The table is the table of the regex
    pass followed by the entries of the entity pass, and the deanonymiser
    applies them in that order.  The keys of the entity entries are entity
    placeholders, none of which occurs in another.  So wherever such a
    placeholder stands in a text, the entity entries before its own pass it
    by, on its left and on its right, and its own entry puts its original
    in its place.  On a text without ["["] in which no pattern matches and
    whose candidates with an allowed label are plain names, however many
    there are, deanonymising the text returned gives the input back. *)
Theorem entity_placeholders_restored_whole {pattern : Type}
    (finditer : pattern -> string -> list string) (nlp : string -> Doc)
    (text : string) (pii_config : list (string * (pattern * string))) :
  let st := regex_pass finditer text pii_config (initial text) in
  let out :=
    anonymize_text_including_proper_nouns_and_addresses
      finditer nlp text pii_config in
  (exists E : dict,
     snd out = (lookup_table st ++ E)%list /\
     (forall t,
        deanonymize_text (snd out) t
        = deanonymize_text E (deanonymize_text (lookup_table st) t)) /\
     (forall k, In k (keys E) ->
        exists label n,
          allowed label = true /\ k = "[" +:+ label +:+ str n +:+ "]") /\
     (forall k k', In k (keys E) -> In k' (keys E) -> k <> k' ->
                   occurs k k' = false) /\
     (forall (E1 : dict) (k v : string) (E2 : dict) (pre post : string),
        E = (E1 ++ (k, v) :: E2)%list ->
        deanonymize_text E (pre +:+ k +:+ post)
        = deanonymize_text E2
            (deanonymize_text (E1 ++ [(k, v)]) pre +:+ v
             +:+ deanonymize_text (E1 ++ [(k, v)]) post))) /\
  (occurs "[" text = false ->
   (forall entry, In entry pii_config ->
      finditer (fst (snd entry)) text = []) ->
   (forall x, In x (ents_and_tokens (nlp text)) ->
      allowed (label_of x) = true -> plain_name (text_of x) = true) ->
   deanonymize_text (snd out) (fst out) = text).
Proof.
  intros st out. split.
  - set (E := entity_records (ents_and_tokens (nlp (anonymized_text st))) st).
    assert (Hkeys : forall k, In k (keys E) -> entity_key k)
      by (intros k; apply entity_records_entity_keys).
    assert (Hnd : List.NoDup (keys E))
      by apply prefix_free_NoDup, entity_records_prefix_free.
    assert (Htab : snd out = (lookup_table st ++ E)%list)
      by apply entity_entries_appended.
    clearbody E. exists E. split; [exact Htab|].
    split; [intros t; rewrite Htab; apply deanonymize_app|].
    split; [exact Hkeys|].
    split.
    { intros k k' Hk Hk' Hne.
      now apply (replace_other_entity_key k k' "" "" ""); auto. }
    intros E1 k v E2 pre post HE.
    assert (Hk : In k (keys E)).
    { rewrite HE. unfold keys. rewrite map_app. apply in_or_app.
      right. now left. }
    rewrite HE in Hkeys, Hnd, Hk |- *. clear HE.
    apply deanonymize_entity_key_whole; [exact (Hkeys k Hk)|].
    intros k' Hin. split.
    + apply Hkeys. unfold keys. rewrite map_app.
      apply in_or_app. now left.
    + unfold keys in Hnd. rewrite map_app in Hnd.
      cbn [map fst] in Hnd. apply List.NoDup_remove_2 in Hnd.
      intros ->. apply Hnd. apply in_or_app. now left.
  - intros Htext Hno Hplain.
    assert (Hst : st = initial text) by now apply regex_pass_no_match.
    assert (Hrecs : records finditer nlp text pii_config
                    = entity_records (ents_and_tokens (nlp text))
                                     (initial text)).
    { unfold records. cbv zeta. fold st.
      rewrite regex_records_no_match by exact Hno. now rewrite Hst. }
    assert (Hpf : prefix_free (keys (records finditer nlp text pii_config))
                  = true)
      by (rewrite Hrecs; apply entity_records_prefix_free).
    assert (Hclean : clean (records finditer nlp text pii_config) [Lit text]
                     = true).
    { rewrite Hrecs. apply entity_clean; [exact Hplain | |].
      - cbn [tidy]. now rewrite <- occurs_char.
      - cbn [anon_of shown initial anonymized_text]. apply str_app_nil_r. }
    destruct (anonymize_as_pieces finditer nlp text pii_config
                Htext Hpf Hclean) as (Htab & Htxt & Horig & Hlits & Hphs).
    cbv zeta in Htab, Htxt, Horig, Hlits, Hphs.
    subst out. rewrite Htab, Htxt.
    transitivity
      (orig_of (place_all (records finditer nlp text pii_config) [Lit text]));
      [|exact Horig].
    apply deanonymize_pieces; [|exact Hpf | exact Hlits | exact Hphs].
    rewrite Hrecs. apply entity_records_bracketed.
Qed.

Lemma entity_placeholders_restored_whole_witness :
  let out :=
    anonymize_text_including_proper_nouns_and_addresses
      re_finditer nlp_ten_persons ten_persons_text pii_config in
  In ("[PERSON1]", "Ann") (snd out) /\
  In ("[PERSON10]", "Jon") (snd out) /\
  deanonymize_text (snd out) (fst out) = ten_persons_text.
Proof.
  cbv zeta. split; [vm_compute; tauto|]. split; [vm_compute; tauto|].
  apply (proj2 (entity_placeholders_restored_whole
                  re_finditer nlp_ten_persons ten_persons_text pii_config)).
  - vm_compute. reflexivity.
  - intros entry [<-|[<-|[<-|[<-|[]]]]]; vm_compute; reflexivity.
  - intros x Hin _.
    assert (E : ents_and_tokens (nlp_ten_persons ten_persons_text)
                = map (fun name => Ent (mkSpan name "PERSON")) ten_names)
      by (vm_compute; reflexivity).
    rewrite E in Hin. cbn [map ten_names] in Hin.
    repeat (destruct Hin as [<-|Hin]; [vm_compute; reflexivity|]).
    destruct Hin.
Defined.
